(** * The to-do list of [script.js]: task store, persistence and handlers

    A shallow embedding of [src/script.js].  The script keeps an array
    [tasks] of objects [{ text, completed, createdAt }], a drag source
    [draggedIndex], and mirrors [tasks] into [localStorage] under the key
    ['tasks'] with [JSON.stringify] and [JSON.parse].

    Layout of the development:
    - [JsString]  strings as sequences of UTF-16 code units, [trim];
    - [JsValue]   the values [JSON.parse] can produce, property
                  assignment, [splice];
    - [JsNumber]  the Number a JSON literal denotes and its string;
    - [Json]      [JSON.stringify] and [JSON.parse];
    - [Script]    the state of the page, a state-and-exception monad, and
                  one definition per function or handler of [script.js];
    - [Store]     the notions the specification of the task store uses;
    - [Examples]  the concrete states the examples run on;
    - [Page]      the listeners that [init] registers, the events of the
                  page and the event loop, sessions and reloads;
    - [Simple]    the script without storage, [src/unnamed/part_000];
    - [Versions]  the events of [part_000] that events of [script.js] are;
    - [Scenarios] the sessions the examples run;
    - the lemmas, and the theorems about the task store, the listeners,
      the sessions and the two scripts.

    The operations of the task store are the handlers of the script:
    [load] is [loadTasks], [add] is [addTask], [remove] is the click
    handler of a remove button, [setCompleted] the change handler of a
    checkbox, [editText] the committing click of an edit button,
    [reorder] is [handleDragStart] on one row and [handleDrop] on
    another, and [clearAll] is [deleteAllTasks]. *)

From Stdlib Require Import NArith Ascii String.
From stdpp Require Import gmap strings list fin_maps sorting.

Local Open Scope N_scope.

(** ** Strings *)

(** A JavaScript string is a sequence of UTF-16 code units; a code unit is
    an [N] below [0x10000] (see [wf_string]). *)
Abbreviation jsstring := (list N).

Module JsString.

(** The code units of a literal of this file (all of them ASCII). *)
Fixpoint js (s : string) : jsstring :=
  match s with
  | EmptyString => []
  | String a s' => N_of_ascii a :: js s'
  end.

(** A literal in which an apostrophe stands for a double quote. *)
Definition jsq (s : string) : jsstring :=
  map (λ c, if c =? 0x27 then 0x22 else c) (js s).

Definition wf_string (s : jsstring) : Prop := Forall (λ c, c < 0x10000) s.

(** WhiteSpace and LineTerminator of ECMAScript: what [String.prototype.trim]
    strips. *)
Definition is_white_space (c : N) : bool :=
  (c =? 0x9) || (c =? 0xA) || (c =? 0xB) || (c =? 0xC) || (c =? 0xD)
  || (c =? 0x20) || (c =? 0xA0) || (c =? 0x1680)
  || ((0x2000 <=? c) && (c <=? 0x200A))
  || (c =? 0x2028) || (c =? 0x2029) || (c =? 0x202F) || (c =? 0x205F)
  || (c =? 0x3000) || (c =? 0xFEFF).

Fixpoint trim_start (s : jsstring) : jsstring :=
  match s with
  | [] => []
  | c :: s' => if is_white_space c then trim_start s' else s
  end.

Fixpoint trim_end (s : jsstring) : jsstring :=
  match s with
  | [] => []
  | c :: s' =>
      match trim_end s' with
      | [] => if is_white_space c then [] else [c]
      | r => c :: r
      end
  end.

(** [s.trim()] *)
Definition trim (s : jsstring) : jsstring := trim_end (trim_start s).

(** Truthiness of a string: [if (!text)] holds exactly for the empty
    string. *)
Definition truthy_string (s : jsstring) : bool :=
  match s with [] => false | _ :: _ => true end.

Fixpoint strip_prefix (p s : jsstring) : option jsstring :=
  match p, s with
  | [], _ => Some s
  | a :: p', b :: s' => if a =? b then strip_prefix p' s' else None
  | _ :: _, [] => None
  end.

Fixpoint eqb_string (a b : jsstring) : bool :=
  match a, b with
  | [], [] => true
  | x :: a', y :: b' => (x =? y) && eqb_string a' b'
  | _, _ => false
  end.

(** Empty or made of white space only. *)
Definition blank (s : jsstring) : bool := forallb is_white_space s.

End JsString.
Import JsString.

(** ** Values *)

Module JsValue.

(** The values that occur in [tasks]: what [JSON.parse] builds, plus
    [undefined] (which a [splice] that removed nothing hands to the second
    [splice] of [handleDrop]).  A number keeps the literal it was read
    from; the script never computes with one, and [JSON.stringify] writes
    the Number that the literal denotes ([JsNumber]).
    An object is its own enumerable properties in property order. *)
#[warnings="-register-all"]
Inductive val : Type :=
  | VUndef
  | VNull
  | VBool (b : bool)
  | VNum (literal : jsstring)
  | VStr (s : jsstring)
  | VArr (elements : list val)
  | VObj (properties : list (jsstring * val)).

(** An array index as a property key: the canonical decimal form of an
    integer below [2^32 - 1].  Such keys are enumerated first, in
    ascending order, whatever the order of creation. *)
Definition is_digit (c : N) : bool := (0x30 <=? c) && (c <=? 0x39).

Definition decimal_value (s : jsstring) : N :=
  fold_left (λ acc c, 10 * acc + (c - 0x30)) s 0.

Definition array_index (k : jsstring) : option N :=
  match k with
  | [] => None
  | c :: k' =>
      if forallb is_digit k
         && (negb (c =? 0x30) || match k' with [] => true | _ => false end)
         && (N.of_nat (length k) <=? 10)
         && (decimal_value k <? 0xFFFFFFFF)
      then Some (decimal_value k)
      else None
  end.

(** Overwrite the value of an existing property, keeping its place. *)
Fixpoint obj_replace (k : jsstring) (v : val) (o : list (jsstring * val))
  : option (list (jsstring * val)) :=
  match o with
  | [] => None
  | (k', v') :: o' =>
      if eqb_string k k' then Some ((k, v) :: o')
      else match obj_replace k v o' with
           | Some r => Some ((k', v') :: r)
           | None => None
           end
  end.

(** Create the array-index property [n] among the index properties. *)
Fixpoint obj_insert_index (n : N) (k : jsstring) (v : val)
    (o : list (jsstring * val)) : list (jsstring * val) :=
  match o with
  | [] => [(k, v)]
  | (k', v') :: o' =>
      match array_index k' with
      | Some m =>
          if m <? n then (k', v') :: obj_insert_index n k v o'
          else (k, v) :: o
      | None => (k, v) :: o
      end
  end.

(** [o[k] = v] on an ordinary object (CreateDataProperty / Set). *)
Definition obj_set (k : jsstring) (v : val) (o : list (jsstring * val))
  : list (jsstring * val) :=
  match obj_replace k v o with
  | Some o' => o'
  | None =>
      match array_index k with
      | Some n => obj_insert_index n k v o
      | None => o ++ [(k, v)]
      end
  end.

Fixpoint obj_get (k : jsstring) (o : list (jsstring * val)) : option val :=
  match o with
  | [] => None
  | (k', v') :: o' => if eqb_string k k' then Some v' else obj_get k o'
  end.

(** [task.k = v] in sloppy mode, for the property names the script uses
    ([completed], [text]).  [None] is the TypeError of assigning on
    [null] or [undefined].  On a primitive the assignment is dropped; a
    named property put on an array is not kept here (neither
    [JSON.stringify] nor the store reads it back from an array). *)
Definition set_prop (task : val) (k : jsstring) (v : val) : option val :=
  match task with
  | VUndef | VNull => None
  | VObj o => Some (VObj (obj_set k v o))
  | VBool _ | VNum _ | VStr _ | VArr _ => Some task
  end.

(** [a.splice(start, deleteCount, ...items)] for a start that is not
    negative (the script passes indices of [forEach]): the removed
    elements and the array afterwards.  [take] and [drop] clamp as
    [splice] does: from [length a] on nothing is removed and the items
    are appended. *)
Definition splice {A} (start deleteCount : nat) (items a : list A)
  : list A * list A :=
  (take deleteCount (drop start a),
   take start a ++ items ++ drop (start + deleteCount) a).

End JsValue.
Import JsValue.

(** ** Numbers *)

Module JsNumber.

Local Open Scope Z_scope.

(** A Number that is not NaN: a zero (of either sign, which no
    conversion to a string tells apart), the finite value
    [(-1)^negative * mantissa * 2^exponent] in the form of the binary64
    format ([2^52 <= mantissa < 2^53] and [-1074 <= exponent <= 971], or
    [0 < mantissa < 2^52] and [exponent = -1074]), or an infinity. *)
Inductive number : Type :=
  | NumZero
  | NumFinite (negative : bool) (mantissa exponent : Z)
  | NumInfinite (negative : bool).

(** The magnitudes below are positive rationals [num / den]. *)

(** [2^a <= num / den]. *)
Definition pow2_le (a num den : Z) : bool :=
  if 0 <=? a then 2 ^ a * den <=? num else den <=? num * 2 ^ (- a).

(** The [e] with [2^e <= num / den < 2^(e + 1)]: with [a] the
    difference of the bit lengths, [num / den] lies between [2^(a - 1)]
    and [2^(a + 1)]. *)
Definition log2_floor (num den : Z) : Z :=
  let a := Z.log2 num - Z.log2 den in
  if pow2_le a num den then a else a - 1.

(** The integer nearest to [num / den], the even one of two. *)
Definition round_half_even (num den : Z) : Z :=
  let q := num / den in
  match 2 * (num mod den) ?= den with
  | Lt => q
  | Gt => q + 1
  | Eq => if Z.even q then q else q + 1
  end.

(** The Number for the real [num / den] (roundTiesToEven): the mantissa
    is [num / den] in units of [2^u], where [u] leaves 53 bits and is no
    smaller than the exponent of the subnormal numbers.  A mantissa
    rounded up to [2^53] is [2^52] at the next exponent, and what comes
    to lie above the largest exponent is an infinity. *)
Definition to_double (negative : bool) (num den : Z) : number :=
  let u := Z.max (log2_floor num den - 52) (-1074) in
  let m := if 0 <=? u then round_half_even num (den * 2 ^ u)
           else round_half_even (num * 2 ^ (- u)) den in
  if m =? 0 then NumZero
  else
    let '(m', u') := if m =? 2 ^ 53 then (2 ^ 52, u + 1) else (m, u) in
    if 971 <? u' then NumInfinite negative else NumFinite negative m' u'.

(** The Number for [d * 10^q], [d] being written with [len] digits.
    Above [10^310] everything is an infinity and below [10^(-330)]
    everything is a zero, which the first two tests say without
    computing the power. *)
Definition decimal_to_double (negative : bool) (d q : Z) (len : nat) : number :=
  if d =? 0 then NumZero
  else if 310 <? q then NumInfinite negative
  else if q + Z.of_nat len <? -330 then NumZero
  else if 0 <=? q then to_double negative (d * 10 ^ q) 1
  else to_double negative d (10 ^ (- q)).

Fixpoint leading_digits (s : jsstring) : jsstring * jsstring :=
  match s with
  | [] => ([], [])
  | c :: s' =>
      if is_digit c
      then let '(d, r) := leading_digits s' in (c :: d, r)
      else ([], s)
  end.

(** The Number that a JSON number literal denotes: sign, integer
    digits, fraction digits and exponent give [d * 10^q]. *)
Definition number_of_literal (literal : jsstring) : number :=
  let '(negative, s0) :=
    match literal with
    | c :: s' => if (c =? 0x2D)%N then (true, s') else (false, literal)
    | [] => (false, literal)
    end in
  let '(int, s1) := leading_digits s0 in
  let '(frac, s2) :=
    match s1 with
    | c :: s' => if (c =? 0x2E)%N then leading_digits s' else ([], s1)
    | [] => ([], s1)
    end in
  let digits s := Z.of_N (decimal_value (fst (leading_digits s))) in
  let exp :=
    match s2 with
    | c :: s' =>
        if ((c =? 0x65) || (c =? 0x45))%N then
          match s' with
          | g :: s'' =>
              if (g =? 0x2D)%N then - digits s''
              else if (g =? 0x2B)%N then digits s''
              else digits s'
          | [] => 0
          end
        else 0
    | [] => 0
    end in
  decimal_to_double negative (Z.of_N (decimal_value (int ++ frac)))
                    (exp - Z.of_nat (length frac)) (length (int ++ frac)).

(** [10^t <= num / den]. *)
Definition pow10_le (t num den : Z) : bool :=
  if 0 <=? t then 10 ^ t * den <=? num else den <=? num * 10 ^ (- t).

(** The [p] with [10^p <= num / den < 10^(p + 1)], looked for around
    the estimate that the bit lengths give ([1233 / 4096] is the
    logarithm of 2 to base 10, to five places). *)
Definition log10_floor (num den : Z) : Z :=
  let est := (Z.log2 num - Z.log2 den) * 1233 / 4096 in
  if pow10_le (est + 2) num den then est + 2
  else if pow10_le (est + 1) num den then est + 1
  else if pow10_le est num den then est
  else if pow10_le (est - 1) num den then est - 1
  else est - 2.

Definition same_number (x y : number) : bool :=
  match x, y with
  | NumZero, NumZero => true
  | NumFinite a m u, NumFinite b n v => Bool.eqb a b && (m =? n) && (u =? v)
  | NumInfinite a, NumInfinite b => Bool.eqb a b
  | _, _ => false
  end.

(** The digits [s] and the power [t], [s] with [k] digits, for which
    [s * 10^t] is nearest to the positive Number [num / den] among the
    decimals of [k] digits that denote it: the one below it or the one
    above it, when either denotes it; of two equally near, the even
    one.  [p] is [log10_floor num den]. *)
Definition shortest_at (num den p k : Z) : option (Z * Z) :=
  let x := to_double false num den in
  let t := p + 1 - k in
  let '(y_num, y_den) :=
    if 0 <=? t then (num, den * 10 ^ t) else (num * 10 ^ (- t), den) in
  let denotes s :=
    same_number
      (if 0 <=? t then to_double false (s * 10 ^ t) 1
       else to_double false s (10 ^ (- t))) x in
  let lo := y_num / y_den in
  let hi := lo + 1 in
  match denotes lo, denotes hi with
  | true, true =>
      match 2 * (y_num mod y_den) ?= y_den with
      | Lt => Some (lo, t)
      | Gt => Some (hi, t)
      | Eq => if Z.even lo then Some (lo, t) else Some (hi, t)
      end
  | true, false => Some (lo, t)
  | false, true => Some (hi, t)
  | false, false => None
  end.

(** The fewest digits that denote the Number, from [k] digits on;
    seventeen digits denote every Number, so the search ends before
    [more] does. *)
Fixpoint shortest_from (more : nat) (num den p k : Z) : Z * Z :=
  match shortest_at num den p k with
  | Some r => r
  | None =>
      match more with
      | O => (num / den, 0)
      | S more' => shortest_from more' num den p (k + 1)
      end
  end.

(** [s] without the zeros it ends with (the decimal above [99...9] is
    a power of ten). *)
Fixpoint strip_zeros (more : nat) (s t : Z) : Z * Z :=
  match more with
  | O => (s, t)
  | S more' =>
      if (s mod 10 =? 0) && (0 <? s) then strip_zeros more' (s / 10) (t + 1)
      else (s, t)
  end.

Fixpoint decimal_digits (more : nat) (n : Z) (acc : jsstring) : jsstring :=
  let acc' := Z.to_N (0x30 + n mod 10) :: acc in
  match more with
  | O => acc'
  | S more' => if n <? 10 then acc' else decimal_digits more' (n / 10) acc'
  end.

(** The decimal digits of a natural number. *)
Definition decimal (n : Z) : jsstring :=
  decimal_digits (Z.to_nat (Z.log2 n)) n [].

(** Number::toString for a positive Number whose shortest decimal is
    [s * 10^t]: with [k] the number of digits of [s] and [n = t + k],
    the digits with zeros after them, or with the point inside them, or
    after [0.] and zeros, or with an exponent. *)
Definition format (s t : Z) : jsstring :=
  let ds := decimal s in
  let k := Z.of_nat (length ds) in
  let n := t + k in
  if (k <=? n) && (n <=? 21) then ds ++ replicate (Z.to_nat (n - k)) 0x30%N
  else if (0 <? n) && (n <=? 21)
       then take (Z.to_nat n) ds ++ 0x2E%N :: drop (Z.to_nat n) ds
  else if (-6 <? n) && (n <=? 0)
       then 0x30%N :: 0x2E%N :: replicate (Z.to_nat (- n)) 0x30%N ++ ds
  else
    let exp :=
      0x65%N :: (if 0 <? n - 1 then 0x2B%N else 0x2D%N)
        :: decimal (Z.abs (n - 1)) in
    match ds with
    | [] => exp
    | [d] => d :: exp
    | d :: rest => d :: 0x2E%N :: rest ++ exp
    end.

(** Number::toString(x), radix 10. *)
Definition Number_toString (x : number) : jsstring :=
  match x with
  | NumZero => js "0"
  | NumInfinite negative => if negative then js "-Infinity" else js "Infinity"
  | NumFinite negative m u =>
      let '(num, den) := if 0 <=? u then (m * 2 ^ u, 1) else (m, 2 ^ (- u)) in
      let '(s, t) :=
        shortest_from 16 num den (log10_floor num den) 1 in
      let '(s', t') := strip_zeros 17 s t in
      (if negative then [0x2D%N] else []) ++ format s' t'
  end.

(** What [JSON.stringify] writes for a Number: [null] for an infinity,
    its string otherwise. *)
Definition serialize_number (x : number) : jsstring :=
  match x with
  | NumInfinite _ => js "null"
  | _ => Number_toString x
  end.

End JsNumber.
Import JsNumber.

(** ** JSON *)

Module Json.

(** *** [JSON.stringify] *)

Definition hex_digit (d : N) : N :=
  if d <? 10 then 0x30 + d else 0x61 + (d - 10).

(** [\uXXXX], four lower-case hexadecimal digits. *)
Definition unicode_escape (c : N) : jsstring :=
  [0x5C; 0x75; hex_digit ((c / 4096) mod 16); hex_digit ((c / 256) mod 16);
   hex_digit ((c / 16) mod 16); hex_digit (c mod 16)].

Definition is_high_surrogate (c : N) : bool := (0xD800 <=? c) && (c <=? 0xDBFF).
Definition is_low_surrogate (c : N) : bool := (0xDC00 <=? c) && (c <=? 0xDFFF).

(** The escape of one code unit that is not half of a surrogate pair. *)
Definition quote_unit (c : N) : jsstring :=
  if c =? 0x08 then js "\b"
  else if c =? 0x09 then js "\t"
  else if c =? 0x0A then js "\n"
  else if c =? 0x0C then js "\f"
  else if c =? 0x0D then js "\r"
  else if c =? 0x22 then [0x5C; 0x22]
  else if c =? 0x5C then js "\\"
  else if (c <? 0x20) || is_high_surrogate c || is_low_surrogate c
       then unicode_escape c
  else [c].

(** QuoteJSONString without the surrounding quotes: a surrogate pair is
    copied, a lone surrogate is escaped. *)
Fixpoint quote_body (s : jsstring) : jsstring :=
  match s with
  | [] => []
  | c :: s' =>
      match s' with
      | d :: s'' =>
          if is_high_surrogate c && is_low_surrogate d
          then c :: d :: quote_body s''
          else quote_unit c ++ quote_body s'
      | [] => quote_unit c
      end
  end.

Definition quote (s : jsstring) : jsstring := 0x22 :: quote_body s ++ [0x22].

Fixpoint join_comma (parts : list jsstring) : jsstring :=
  match parts with
  | [] => []
  | [p] => p
  | p :: ps => p ++ 0x2C :: join_comma ps
  end.

(** SerializeJSONProperty; [None] is [undefined].  In an array
    [undefined] is written [null]; in an object a property whose value is
    [undefined] is left out.  A number is written as the string of its
    value, and as [null] when the value is not finite. *)
Fixpoint stringify (v : val) : option jsstring :=
  match v with
  | VUndef => None
  | VNull => Some (js "null")
  | VBool true => Some (js "true")
  | VBool false => Some (js "false")
  | VNum literal => Some (serialize_number (number_of_literal literal))
  | VStr s => Some (quote s)
  | VArr l =>
      Some (0x5B :: join_comma (map (λ x, default (js "null") (stringify x)) l)
              ++ [0x5D])
  | VObj o =>
      Some (0x7B :: join_comma
              (omap (λ p, match stringify (snd p) with
                          | Some sv => Some (quote (fst p) ++ 0x3A :: sv)
                          | None => None
                          end) o)
              ++ [0x7D])
  end.

(** [JSON.stringify(v)] with the result converted to a string, as
    [localStorage.setItem] does with its argument. *)
Definition JSON_stringify (v : val) : jsstring :=
  default (js "undefined") (stringify v).

(** *** [JSON.parse] *)

(** The result of a parsing function that runs on fuel. *)
Inductive presult (A : Type) : Type :=
  | POk (a : A) (rest : jsstring)
  | PSyntax
  | PFuel.
Arguments POk {A} a rest.
Arguments PSyntax {A}.
Arguments PFuel {A}.

Definition pbind {A B} (x : presult A) (k : A → jsstring → presult B)
  : presult B :=
  match x with
  | POk a rest => k a rest
  | PSyntax => PSyntax
  | PFuel => PFuel
  end.

Definition of_option {A} (x : option (A * jsstring)) : presult A :=
  match x with
  | Some (a, rest) => POk a rest
  | None => PSyntax
  end.

(** JSON white space: tab, line feed, carriage return, space. *)
Definition is_json_ws (c : N) : bool :=
  (c =? 0x09) || (c =? 0x0A) || (c =? 0x0D) || (c =? 0x20).

Fixpoint skip_ws (s : jsstring) : jsstring :=
  match s with
  | [] => []
  | c :: s' => if is_json_ws c then skip_ws s' else s
  end.

Definition hex_value (c : N) : option N :=
  if is_digit c then Some (c - 0x30)
  else if (0x61 <=? c) && (c <=? 0x66) then Some (c - 0x61 + 10)
  else if (0x41 <=? c) && (c <=? 0x46) then Some (c - 0x41 + 10)
  else None.

Definition hex4 (a b c d : N) : option N :=
  match hex_value a, hex_value b, hex_value c, hex_value d with
  | Some x, Some y, Some z, Some w => Some (((x * 16 + y) * 16 + z) * 16 + w)
  | _, _, _, _ => None
  end.

(** The character a one-letter escape stands for. *)
Definition simple_escape (e : N) : option N :=
  if e =? 0x22 then Some 0x22
  else if e =? 0x5C then Some 0x5C
  else if e =? 0x2F then Some 0x2F
  else if e =? 0x62 then Some 0x08
  else if e =? 0x66 then Some 0x0C
  else if e =? 0x6E then Some 0x0A
  else if e =? 0x72 then Some 0x0D
  else if e =? 0x74 then Some 0x09
  else None.

Definition cons_fst {A} (c : N) (x : option (jsstring * A))
  : option (jsstring * A) :=
  match x with
  | Some (s, r) => Some (c :: s, r)
  | None => None
  end.

(** A JSON string after its opening quote: the string value and what
    follows the closing quote. *)
Fixpoint parse_string_chars (s : jsstring) : option (jsstring * jsstring) :=
  match s with
  | [] => None
  | c :: s' =>
      if c =? 0x22 then Some ([], s')
      else if c =? 0x5C then
        match s' with
        | [] => None
        | e :: s'' =>
            if e =? 0x75 then
              match s'' with
              | h1 :: h2 :: h3 :: h4 :: r =>
                  match hex4 h1 h2 h3 h4 with
                  | Some u => cons_fst u (parse_string_chars r)
                  | None => None
                  end
              | _ => None
              end
            else
              match simple_escape e with
              | Some u => cons_fst u (parse_string_chars s'')
              | None => None
              end
        end
      else if c <? 0x20 then None
      else cons_fst c (parse_string_chars s')
  end.

Fixpoint span_digits (s : jsstring) : jsstring * jsstring :=
  match s with
  | [] => ([], [])
  | c :: s' =>
      if is_digit c
      then let '(d, r) := span_digits s' in (c :: d, r)
      else ([], s)
  end.

(** [0] or a non-zero digit followed by digits. *)
Definition parse_int (s : jsstring) : option (jsstring * jsstring) :=
  match s with
  | [] => None
  | c :: s' =>
      if c =? 0x30 then Some ([c], s')
      else if is_digit c then let '(d, r) := span_digits s' in Some (c :: d, r)
      else None
  end.

Definition parse_frac (s : jsstring) : option (jsstring * jsstring) :=
  match s with
  | c :: s' =>
      if c =? 0x2E then
        match span_digits s' with
        | ([], _) => None
        | (d, r) => Some (c :: d, r)
        end
      else Some ([], s)
  | [] => Some ([], s)
  end.

Definition parse_exp (s : jsstring) : option (jsstring * jsstring) :=
  match s with
  | c :: s' =>
      if (c =? 0x65) || (c =? 0x45) then
        let '(sign, s1) :=
          match s' with
          | g :: s'' => if (g =? 0x2B) || (g =? 0x2D) then ([g], s'') else ([], s')
          | [] => ([], s')
          end in
        match span_digits s1 with
        | ([], _) => None
        | (d, r) => Some (c :: sign ++ d, r)
        end
      else Some ([], s)
  | [] => Some ([], s)
  end.

(** A JSON number: its literal and what follows. *)
Definition parse_number (s : jsstring) : option (jsstring * jsstring) :=
  let '(minus, s0) :=
    match s with
    | c :: s' => if c =? 0x2D then ([c], s') else ([], s)
    | [] => ([], s)
    end in
  match parse_int s0 with
  | None => None
  | Some (i, s1) =>
      match parse_frac s1 with
      | None => None
      | Some (f, s2) =>
          match parse_exp s2 with
          | None => None
          | Some (e, s3) => Some (minus ++ i ++ f ++ e, s3)
          end
      end
  end.

(** The members of an object literal, in source order, become the
    properties of the object: a repeated key overwrites. *)
Definition obj_of_members (ms : list (jsstring * val)) : val :=
  VObj (fold_left (λ o m, obj_set (fst m) (snd m) o) ms []).

(** A value that is not an array or an object, [s] starting at its first
    character. *)
Definition parse_scalar (s : jsstring) : presult val :=
  match s with
  | [] => PSyntax
  | c :: r =>
      if c =? 0x22 then
        match parse_string_chars r with
        | Some (str, r') => POk (VStr str) r'
        | None => PSyntax
        end
      else if c =? 0x74 then
        match strip_prefix (js "true") s with
        | Some r' => POk (VBool true) r'
        | None => PSyntax
        end
      else if c =? 0x66 then
        match strip_prefix (js "false") s with
        | Some r' => POk (VBool false) r'
        | None => PSyntax
        end
      else if c =? 0x6E then
        match strip_prefix (js "null") s with
        | Some r' => POk VNull r'
        | None => PSyntax
        end
      else
        match parse_number s with
        | Some (literal, r') => POk (VNum literal) r'
        | None => PSyntax
        end
  end.

(** What follows an element or a member: [sep] and one more, or the
    closing bracket [close]. *)
Definition after_item {A} (sep close : N) (s : jsstring)
    (more : jsstring → presult (list A)) (x : A) : presult (list A) :=
  match skip_ws s with
  | [] => PSyntax
  | d :: r =>
      if d =? sep then pbind (more r) (λ xs r', POk (x :: xs) r')
      else if d =? close then POk [x] r
      else PSyntax
  end.

Fixpoint parse_value (fuel : nat) (s : jsstring) : presult val :=
  match fuel with
  | O => PFuel
  | S fuel' =>
      match skip_ws s with
      | [] => PSyntax
      | c :: r =>
          if c =? 0x7B then
            match skip_ws r with
            | [] => PSyntax
            | d :: r' =>
                if d =? 0x7D then POk (VObj []) r'
                else pbind (parse_members fuel' r)
                           (λ ms r'', POk (obj_of_members ms) r'')
            end
          else if c =? 0x5B then
            match skip_ws r with
            | [] => PSyntax
            | d :: r' =>
                if d =? 0x5D then POk (VArr []) r'
                else pbind (parse_elements fuel' r) (λ vs r'', POk (VArr vs) r'')
            end
          else parse_scalar (c :: r)
      end
  end
with parse_elements (fuel : nat) (s : jsstring) : presult (list val) :=
  match fuel with
  | O => PFuel
  | S fuel' =>
      pbind (parse_value fuel' s)
            (λ v r, after_item 0x2C 0x5D r (parse_elements fuel') v)
  end
with parse_members (fuel : nat) (s : jsstring)
  : presult (list (jsstring * val)) :=
  match fuel with
  | O => PFuel
  | S fuel' =>
      match skip_ws s with
      | [] => PSyntax
      | c :: r =>
          if c =? 0x22 then
            match parse_string_chars r with
            | None => PSyntax
            | Some (k, r1) =>
                match skip_ws r1 with
                | [] => PSyntax
                | d :: r2 =>
                    if d =? 0x3A then
                      pbind (parse_value fuel' r2)
                            (λ v r3, after_item 0x2C 0x7D r3
                                       (parse_members fuel') (k, v))
                    else PSyntax
                end
            end
          else PSyntax
      end
  end.

(** Fuel that never runs out on [s] (lemma [parse_value_fuel]). *)
Definition fuel_for (s : jsstring) : nat := 2 * length s + 1.

(** [JSON.parse(s)]: [None] is the SyntaxError. *)
Definition JSON_parse (s : jsstring) : option val :=
  match parse_value (fuel_for s) s with
  | POk v rest => match skip_ws rest with [] => Some v | _ :: _ => None end
  | PSyntax | PFuel => None
  end.

End Json.
Import Json.

(** ** The script *)

Module Script.

Local Open Scope nat_scope.

(** A task as [addTask] builds it. *)
Record Task := mkTask {
  text : jsstring;
  completed : bool;
  createdAt : jsstring
}.

(** The object literal [{ text: .., completed: .., createdAt: .. }]. *)
Definition task_val (t : Task) : val :=
  VObj [(js "text", VStr (text t));
        (js "completed", VBool (completed t));
        (js "createdAt", VStr (createdAt t))].

(** An array of task objects. *)
Definition task_list (l : list Task) : val := VArr (task_val <$> l).

(** The strings of a task are sequences of 16-bit code units. *)
Definition wf_task (t : Task) : Prop :=
  wf_string (text t) ∧ wf_string (createdAt t).

(** The text [JSON.stringify] writes for a task. *)
Definition task_text (t : Task) : jsstring :=
  (0x7B :: quote (js "text") ++ 0x3A :: quote (text t)
   ++ 0x2C :: quote (js "completed") ++ 0x3A ::
      (if completed t then js "true" else js "false")
   ++ 0x2C :: quote (js "createdAt") ++ 0x3A :: quote (createdAt t)
   ++ [0x7D])%N.

Inductive error := SyntaxError | TypeError | QuotaExceededError.

(** The variables of the script and the part of the page and of the
    browser that its functions read or write.  [quota] is how many code
    units (keys and values together) [localStorage] accepts. *)
Record state := mkState {
  tasks : val;
  draggedIndex : option nat;
  todoInput_value : jsstring;
  darkMode : bool;
  localStorage : gmap (list N) (list N);
  quota : nat
}.

Definition set_tasks (v : val) (st : state) : state :=
  mkState v (draggedIndex st) (todoInput_value st) (darkMode st)
          (localStorage st) (quota st).
Definition set_draggedIndex (d : option nat) (st : state) : state :=
  mkState (tasks st) d (todoInput_value st) (darkMode st)
          (localStorage st) (quota st).
Definition set_todoInput_value (s : jsstring) (st : state) : state :=
  mkState (tasks st) (draggedIndex st) s (darkMode st)
          (localStorage st) (quota st).
Definition set_darkMode (b : bool) (st : state) : state :=
  mkState (tasks st) (draggedIndex st) (todoInput_value st) b
          (localStorage st) (quota st).
Definition set_localStorage (m : gmap (list N) (list N)) (st : state) : state :=
  mkState (tasks st) (draggedIndex st) (todoInput_value st) (darkMode st)
          m (quota st).

(** *** Statements: state and exceptions

    A statement runs from a state to a completion and a state; the state
    that comes with [Throw] is the one the exception left behind. *)
Inductive completion (A : Type) : Type :=
  | Normal (a : A)
  | Throw (e : error).
Arguments Normal {A} a.
Arguments Throw {A} e.

Definition M (A : Type) : Type := state → completion A * state.

#[export] Instance M_ret : MRet M := λ A a st, (Normal a, st).
#[export] Instance M_bind : MBind M := λ A B k m st,
  match m st with
  | (Normal a, st') => k a st'
  | (Throw e, st') => (Throw e, st')
  end.

Definition throw {A} (e : error) : M A := λ st, (Throw e, st).
Definition get_state : M state := λ st, (Normal st, st).
Definition modify (f : state → state) : M unit := λ st, (Normal tt, f st).

(** [try { body } catch (e) { handler }] *)
Definition try_catch {A} (body : M A) (handler : error → M A) : M A := λ st,
  match body st with
  | (Throw e, st') => handler e st'
  | r => r
  end.

(** *** [localStorage] *)

Definition storage_used (m : gmap (list N) (list N)) : nat :=
  map_fold (λ k v n, length k + length v + n) 0 m.

Definition getItem (k : jsstring) : M (option jsstring) := λ st,
  (Normal (localStorage st !! k), st).

(** [setItem] throws, and stores nothing, when the store would outgrow
    its quota. *)
Definition setItem (k v : jsstring) : M unit := λ st,
  let m := <[k:=v]> (localStorage st) in
  if decide (storage_used m ≤ quota st)
  then (Normal tt, set_localStorage m st)
  else (Throw QuotaExceededError, st).

(** *** Array methods on [tasks] *)

(** [tasks.splice(start, deleteCount, ...items)]; a TypeError when
    [tasks] has no [splice]. *)
Definition tasks_splice (start deleteCount : nat) (items : list val)
  : M (list val) :=
  st ← get_state;
  match tasks st with
  | VArr l =>
      let '(removed, l') := splice start deleteCount items l in
      modify (set_tasks (VArr l'));; mret removed
  | _ => throw TypeError
  end.

(** [tasks.push(x)] *)
Definition tasks_push (x : val) : M unit :=
  st ← get_state;
  match tasks st with
  | VArr l => modify (set_tasks (VArr (l ++ [x])))
  | _ => throw TypeError
  end.

(** [task.k = v], where [task] is the object that the closures of a row
    captured.  The closures use [task] and never the number of the row:
    [index] is the position at which [tasks] holds that object now, which
    is the number of the row when the rows are those of the last
    [renderTasks] of this list.  A row whose task is no longer in the
    array ([index] beyond it) assigns on an object that [tasks] does not
    hold. *)
Definition task_assign (index : nat) (k : jsstring) (v : val) : M unit :=
  st ← get_state;
  match tasks st with
  | VArr l =>
      match l !! index with
      | Some task =>
          match set_prop task k v with
          | Some task' => modify (set_tasks (VArr (<[index:=task']> l)))
          | None => throw TypeError
          end
      | None => mret tt
      end
  | _ => mret tt
  end.

(** *** The functions of [script.js]

    The handlers that [renderTasks] installs on a row are closures over
    the [index] and the [task] of that row.  They are given here as
    functions of [index], and stand for the handlers of the rows of the
    last [renderTasks], which every handler ends with: row [index] then
    holds [tasks[index]]. *)

(** [JSON.parse(s)] as a statement. *)
Definition JSON_parse_stmt (s : jsstring) : M val :=
  match JSON_parse s with
  | Some v => mret v
  | None => throw SyntaxError
  end.

Definition saveTasks : M unit :=
  st ← get_state;
  setItem (js "tasks") (JSON_stringify (tasks st)).

Definition loadTasks : M unit :=
  stored ← getItem (js "tasks");
  try_catch
    (v ← match stored with
         | Some s => if truthy_string s then JSON_parse_stmt s
                     else mret (VArr [])
         | None => mret (VArr [])
         end;
     modify (set_tasks v))
    (λ e, modify (set_tasks (VArr []))).

(** [task.k] read for the property names the script uses: an own
    property of an object, and [undefined] otherwise (no prototype has a
    [text], [completed] or [createdAt]). *)
Definition get_prop (task : val) (k : jsstring) : val :=
  match task with
  | VObj o => default VUndef (obj_get k o)
  | _ => VUndef
  end.

(** Whether a value converts to a primitive (ToString, ToPrimitive).
    No value built by [JSON.parse] is callable, so an object with an own
    [toString] property does not convert (a TypeError), and neither does
    an array that [join]s such an element. *)
Fixpoint converts (v : val) : bool :=
  match v with
  | VObj o =>
      match obj_get (js "toString") o with
      | Some _ => false
      | None => true
      end
  | VArr l => forallb converts l
  | _ => true
  end.

(** Whether the callback of [tasks.forEach] builds the row of [task]:
    reading [task.completed] is a TypeError on [null] and [undefined];
    [taskSpan.textContent = task.text] and [new Date(task.createdAt)]
    convert their argument. *)
Definition renders (task : val) : bool :=
  match task with
  | VUndef | VNull => false
  | _ => converts (get_prop task (js "text"))
         && converts (get_prop task (js "createdAt"))
  end.

(** [renderTasks] rebuilds the list items from [tasks]; of that, the
    model keeps whether it throws ([tasks.forEach] on something that is
    not an array, or a row that cannot be built). *)
Definition renderTasks : M unit :=
  st ← get_state;
  match tasks st with
  | VArr l => if forallb renders l then mret tt else throw TypeError
  | _ => throw TypeError
  end.

(** The [change] handler of the checkbox of row [index];
    [checked] is [checkbox.checked]. *)
Definition checkbox_change (index : nat) (checked : bool) : M unit :=
  task_assign index (js "completed") (VBool checked);;
  saveTasks;;
  renderTasks.

(** The [click] handler of the edit button of row [index];
    [isEditing] is [taskSpan.isContentEditable] and [textContent] is
    [taskSpan.textContent]. *)
Definition editBtn_click (index : nat) (isEditing : bool)
    (textContent : jsstring) : M unit :=
  if negb isEditing then mret tt
  else
    let newText := trim textContent in
    (if truthy_string newText
     then task_assign index (js "text") (VStr newText);; saveTasks
     else mret tt);;
    renderTasks.

(** The [click] handler of the remove button of row [index]. *)
Definition removeBtn_click (index : nat) : M unit :=
  tasks_splice index 1 [];;
  saveTasks;;
  renderTasks.

(** [index] is [Number(this.dataset.index)]. *)
Definition handleDragStart (index : nat) : M unit :=
  modify (set_draggedIndex (Some index)).

Definition handleDragOver : M unit := mret tt.

(** [targetIndex] is [Number(this.dataset.index)]. *)
Definition handleDrop (targetIndex : nat) : M unit :=
  st ← get_state;
  match draggedIndex st with
  | None => mret tt
  | Some dragged =>
      if decide (dragged = targetIndex) then mret tt
      else
        removed ← tasks_splice dragged 1 [];
        let movedTask := default VUndef (head removed) in
        tasks_splice targetIndex 0 [movedTask];;
        saveTasks;;
        renderTasks
  end.

Definition handleDragEnd : M unit :=
  modify (set_draggedIndex None).

(** [now] is [new Date().toISOString()]. *)
Definition addTask (now : jsstring) : M unit :=
  st ← get_state;
  let text := trim (todoInput_value st) in
  if negb (truthy_string text) then mret tt
  else
    let newTask := task_val (mkTask text false now) in
    tasks_push newTask;;
    saveTasks;;
    renderTasks;;
    modify (set_todoInput_value []).

Definition deleteAllTasks : M unit :=
  modify (set_tasks (VArr []));;
  saveTasks;;
  renderTasks.

(** [force] is [None] when the argument is not a boolean. *)
Definition toggleDarkMode (force : option bool) : M unit :=
  st ← get_state;
  let enable := match force with
                | Some b => b
                | None => negb (darkMode st)
                end in
  modify (set_darkMode enable);;
  setItem (js "darkMode") (if enable then js "true" else js "false").

Definition init : M unit :=
  loadTasks;;
  stored ← getItem (js "darkMode");
  (if decide (stored = Some (js "true")) then toggleDarkMode (Some true)
   else mret tt);;
  renderTasks.

End Script.
Import Script.

(** ** The notions of the specification *)

Module Store.

Local Open Scope nat_scope.

(** The persist step fails: [saveTasks] ends with an exception. *)
Definition persist_fails (st : state) : Prop :=
  ∃ e, fst (saveTasks st) = Throw e.

(** [tasks] is an array of task objects, each satisfying [P]. *)
Definition tasks_satisfy (P : Task → Prop) (st : state) : Prop :=
  ∃ l, tasks st = task_list l ∧ Forall P l.

(** The text of the task is neither empty nor made of white space. *)
Definition nonblank_text (t : Task) : Prop := blank (text t) = false.

(** The invariant of the data model: no task with a blank text. *)
Definition no_blank_text : state → Prop := tasks_satisfy nonblank_text.

(** The recorded drag source, if any, is a row of the list. *)
Definition drag_in_range (st : state) : Prop :=
  ∀ d l, draggedIndex st = Some d → tasks st = VArr l → d < length l.

End Store.
Import Store.

(** ** States and lists that the examples run on *)

Module Examples.

Local Open Scope nat_scope.

Definition three_tasks : list val :=
  [VStr (js "A"); VStr (js "B"); VStr (js "C")].

Definition one_task : list Task :=
  [mkTask (js "Old") true (js "2024-05-01T10:00:00.000Z")].

Definition milk : Task :=
  mkTask (js "Buy milk") true (js "2024-05-01T10:00:00.000Z").

(** One task in the list, and a drag source recorded for a sixth row. *)
Definition stale_drag : state :=
  mkState (VArr [VStr (js "A")]) (Some 5) [] false ∅ 100.

(** A store whose quota the first task already exceeds. *)
Definition full_store : state :=
  mkState (VArr []) None (js "Buy milk") false ∅ 10.

(** A store whose blob is cut short, and one whose blob is JSON but not
    a list of tasks. *)
Definition corrupted_store : state :=
  mkState (VArr []) None [] false {[ js "tasks" := js "[{" ]} 100.

Definition foreign_store : state :=
  mkState (VArr []) None [] false {[ js "tasks" := js "{}" ]} 100.

(** A list with one task, and the state that [add] of a blank text is
    tried on. *)
Definition one_nonblank : state :=
  mkState (task_list [mkTask (js "Old") false (js "2024-05-01T10:00:00.000Z")])
          None (js "   ") false ∅ 200.

(** A store whose blob encodes a task whose text is one space. *)
Definition blank_blob_store : state :=
  mkState (VArr []) None [] false
    {[ js "tasks" := jsq "[{'text':' ','completed':false,'createdAt':'x'}]" ]}
    200.

(** Typing [s] in the input field. *)
Definition type_input (s : jsstring) : M unit :=
  modify (set_todoInput_value s).

(** From the empty list: add two tasks, complete the first, remove the
    second. *)
Definition session : M unit :=
  type_input (js "Buy milk");;
  addTask (js "2024-05-01T10:00:00.000Z");;
  type_input (js " Call Bob ");;
  addTask (js "2024-05-01T10:05:00.000Z");;
  checkbox_change 0 true;;
  removeBtn_click 1.

Definition empty_page : state := mkState (VArr []) None [] false ∅ 1000.

End Examples.
Import Examples.

(** ** The listeners and the event loop *)

Module Page.

Local Open Scope nat_scope.

(** The [keyup] listener of the input field; [key] is [event.key]. *)
Definition todoInput_keyup (key now : jsstring) : M unit :=
  if decide (key = js "Enter") then addTask now else mret tt.

(** The [click] listener of the dark-mode button: [toggleDarkMode()]
    without an argument. *)
Definition darkModeToggle_click : M unit := toggleDarkMode None.

(** What happens on the page: the user edits the input field, or one of
    the listeners that [init] and [renderTasks] register is called, with
    what it reads from the event, the page and the clock. *)
Inductive event : Type :=
  | Typed (s : jsstring)
  | AddClick (now : jsstring)
  | KeyUp (key now : jsstring)
  | DeleteAllClick
  | DarkModeClick
  | CheckboxChange (index : nat) (checked : bool)
  | EditClick (index : nat) (isEditing : bool) (textContent : jsstring)
  | RemoveClick (index : nat)
  | DragStart (index : nat)
  | DragOver
  | Drop (index : nat)
  | DragEnd.

Definition dispatch (ev : event) : M unit :=
  match ev with
  | Typed s => type_input s
  | AddClick now => addTask now
  | KeyUp key now => todoInput_keyup key now
  | DeleteAllClick => deleteAllTasks
  | DarkModeClick => darkModeToggle_click
  | CheckboxChange index checked => checkbox_change index checked
  | EditClick index isEditing textContent =>
      editBtn_click index isEditing textContent
  | RemoveClick index => removeBtn_click index
  | DragStart index => handleDragStart index
  | DragOver => handleDragOver
  | Drop index => handleDrop index
  | DragEnd => handleDragEnd
  end.

(** The event loop: an exception that a listener throws is reported, and
    the next event finds the state the listener left. *)
Definition run (evs : list event) (st : state) : state :=
  fold_left (λ s ev, snd (dispatch ev s)) evs st.

(** The number of rows that [renderTasks] makes of [tasks]. *)
Definition rows (st : state) : nat :=
  match tasks st with
  | VArr l => length l
  | _ => 0
  end.

(** The event comes from a row that [renderTasks] made of the current
    [tasks] (and for a drop, so does the drag source). *)
Definition on_page (st : state) (ev : event) : Prop :=
  match ev with
  | CheckboxChange index _ | EditClick index _ _ | RemoveClick index
  | DragStart index => index < rows st
  | Drop index =>
      index < rows st ∧ ∀ d, draggedIndex st = Some d → d < rows st
  | _ => True
  end.

(** The strings that come with the event are sequences of code units. *)
Definition wf_event (ev : event) : Prop :=
  match ev with
  | Typed s => wf_string s
  | AddClick now | KeyUp _ now => wf_string now
  | EditClick _ _ textContent => wf_string textContent
  | _ => True
  end.

(** A session in which every event comes from the page as it is and
    every listener completes. *)
Fixpoint completes (evs : list event) (st : state) : Prop :=
  match evs with
  | [] => True
  | ev :: evs' =>
      on_page st ev ∧ wf_event ev ∧ fst (dispatch ev st) = Normal tt
      ∧ completes evs' (snd (dispatch ev st))
  end.

(** What is stored fits the quota. *)
Definition within_quota (st : state) : Prop :=
  storage_used (localStorage st) ≤ quota st.

(** Loading gives the list that is in memory. *)
Definition restorable (st : state) : Prop :=
  tasks (snd (loadTasks st)) = tasks st.

(** A task as the listeners make it: strings of code units, and a text
    that is trimmed and not blank. *)
Definition good_task (t : Task) : Prop :=
  wf_task t ∧ nonblank_text t ∧ trim (text t) = text t.

Definition consistent (st : state) : Prop :=
  tasks_satisfy good_task st ∧ restorable st
  ∧ wf_string (todoInput_value st).

(** The page after a reload: the variables of the script as they are
    declared, and the storage as it was left. *)
Definition reload (st : state) : state :=
  mkState (VArr []) None [] false (localStorage st) (quota st).

(** A statement keeps [R] between the state it starts from and the
    state it leaves (completing or not). *)
Definition keeps {A} (R : state → state → Prop) (m : M A) : Prop :=
  ∀ st, R st (snd (m st)).

(** Same dark mode, on the page and as stored. *)
Definition same_dark (st st' : state) : Prop :=
  darkMode st' = darkMode st
  ∧ localStorage st' !! js "darkMode" = localStorage st !! js "darkMode".

(** Same list, drag source and input, and same stored list. *)
Definition same_tasks (st st' : state) : Prop :=
  tasks st' = tasks st
  ∧ draggedIndex st' = draggedIndex st
  ∧ todoInput_value st' = todoInput_value st
  ∧ localStorage st' !! js "tasks" = localStorage st !! js "tasks".

(** The stored dark-mode preference is the literal [true]. *)
Definition dark_stored (st : state) : bool :=
  bool_decide (localStorage st !! js "darkMode" = Some (js "true")).

(** How a listener goes about the list and the stored list: it leaves
    both alone; or it only draws the list; or it stops on a list that
    cannot be drawn; or it changes the list, stores it and draws it (and,
    for [addTask], then empties the input field). *)
Inductive manner (st : state) (r : completion unit * state) : Prop :=
  | leaves_list :
      fst r = Normal tt ∨ fst r = Throw QuotaExceededError →
      tasks (snd r) = tasks st →
      localStorage (snd r) !! js "tasks" = localStorage st !! js "tasks" →
      todoInput_value (snd r) = todoInput_value st ∨ fst r = Normal tt →
      manner st r
  | only_draws : r = renderTasks st → manner st r
  | cannot_draw :
      r = (Throw TypeError, st) → fst (renderTasks st) = Throw TypeError →
      manner st r
  | persists (w : val) :
      r = (saveTasks;; renderTasks) (set_tasks w st) → manner st r
  | persists_and_clears (w : val) :
      r = (saveTasks;; renderTasks;; modify (set_todoInput_value []))
            (set_tasks w st) →
      manner st r.

End Page.
Import Page.

(** ** The script without storage ([part_000]) *)

Module Simple.

Local Open Scope nat_scope.

(** A list item: the [li] node and the text of its span.  Nodes are
    numbered in the order the script creates them. *)
Record item := mkItem {
  node : nat;
  label : jsstring
}.

(** The input field, the children of the list, and how many list items
    the script has created. *)
Record page := mkPage {
  input_value : jsstring;
  todoList : list item;
  created : nat
}.

Inductive outcome := Done | NotFoundError.

Definition addTodo (p : page) : page :=
  let taskText := trim (input_value p) in
  if decide (taskText = []) then p
  else mkPage [] (todoList p ++ [mkItem (created p) taskText])
              (S (created p)).

(** [todoList.removeChild(listItem)] on the children. *)
Fixpoint removeChild (n : nat) (l : list item) : option (list item) :=
  match l with
  | [] => None
  | it :: l' =>
      if decide (node it = n) then Some l'
      else match removeChild n l' with
           | Some r => Some (it :: r)
           | None => None
           end
  end.

(** The [click] listener of the remove button of the list item [n]. *)
Definition removeBtn_click (n : nat) (p : page) : outcome * page :=
  match removeChild n (todoList p) with
  | Some l => (Done, mkPage (input_value p) l (created p))
  | None => (NotFoundError, p)
  end.

(** The [keyup] listener of the input field. *)
Definition todoInput_keyup (key : jsstring) (p : page) : page :=
  if decide (key = js "Enter") then addTodo p else p.

Inductive event : Type :=
  | Typed (s : jsstring)
  | AddClick
  | KeyUp (key : jsstring)
  | RemoveClick (n : nat).

Definition dispatch (ev : event) (p : page) : page :=
  match ev with
  | Typed s => mkPage s (todoList p) (created p)
  | AddClick => addTodo p
  | KeyUp key => todoInput_keyup key p
  | RemoveClick n => snd (removeBtn_click n p)
  end.

Definition run (evs : list event) (p : page) : page :=
  fold_left (λ q ev, dispatch ev q) evs p.

(** The children are in the order in which they were made, all made
    before the next one, and their texts are trimmed and not empty. *)
Definition well_formed (p : page) : Prop :=
  StronglySorted lt (node <$> todoList p)
  ∧ Forall (λ it, node it < created p
                  ∧ label it ≠ [] ∧ trim (label it) = label it)
      (todoList p).

End Simple.

(** ** The two scripts side by side *)

Module Versions.

Local Open Scope nat_scope.

(** The event of [part_000] that an event of [script.js] is on the page
    [p]: the remove button of row [index] is the one of the child at
    [index].  What [part_000] has no listener for is no event of it. *)
Definition simple_event (p : Simple.page) (ev : event) : option Simple.event :=
  match ev with
  | Typed s => Some (Simple.Typed s)
  | AddClick _ => Some Simple.AddClick
  | KeyUp key _ => Some (Simple.KeyUp key)
  | RemoveClick index =>
      (λ it, Simple.RemoveClick (Simple.node it)) <$> Simple.todoList p !! index
  | _ => None
  end.

(** The events of [part_000] that the events of [script.js] are, from
    the page [p] on. *)
Fixpoint simple_events (evs : list event) (p : Simple.page)
  : option (list Simple.event) :=
  match evs with
  | [] => Some []
  | ev :: evs' =>
      match simple_event p ev with
      | Some ev' =>
          match simple_events evs' (Simple.dispatch ev' p) with
          | Some r => Some (ev' :: r)
          | None => None
          end
      | None => None
      end
  end.

(** The same texts in the same order, and the same input. *)
Definition same_texts (p : Simple.page) (st : state) : Prop :=
  (∃ l, tasks st = task_list l
        ∧ text <$> l = Simple.label <$> Simple.todoList p)
  ∧ todoInput_value st = Simple.input_value p.

End Versions.
Import Versions.

Module Scenarios.

Local Open Scope nat_scope.

(** Two tasks added (by the button and by the Enter key), the first one
    completed and dragged below the second, the second one reworded, and
    the first one removed. *)
Definition shopping : list event :=
  [Typed (js "Buy milk"); AddClick (js "2024-05-01T10:00:00.000Z");
   Typed (js " Call Bob "); KeyUp (js "Enter") (js "2024-05-01T10:05:00.000Z");
   CheckboxChange 0 true;
   DragStart 0; DragOver; Drop 1; DragEnd;
   EditClick 0 false (js "Call Bob"); EditClick 0 true (js "Call Bob today ");
   DarkModeClick;
   RemoveClick 1].

(** Adding and removing only. *)
Definition errands : list event :=
  [Typed (js "Buy milk"); AddClick (js "2024-05-01T10:00:00.000Z");
   Typed (js " Call Bob "); KeyUp (js "Enter") (js "2024-05-01T10:05:00.000Z");
   Typed (js "   "); AddClick (js "2024-05-01T10:06:00.000Z");
   RemoveClick 0;
   Typed (js "Post letter"); KeyUp (js "a") (js "2024-05-01T10:07:00.000Z");
   AddClick (js "2024-05-01T10:08:00.000Z")].

Definition simple_start : Simple.page := Simple.mkPage [] [] 0.

Definition simple_errands : list Simple.event :=
  [Simple.Typed (js "Buy milk"); Simple.AddClick;
   Simple.Typed (js " Call Bob "); Simple.KeyUp (js "Enter");
   Simple.RemoveClick 0; Simple.RemoveClick 0;
   Simple.Typed (js "  "); Simple.AddClick].

End Scenarios.
Import Scenarios.

(** * Lemmas *)

Local Open Scope nat_scope.

(** ** Running statements *)

Ltac stmt :=
  unfold tasks_splice, tasks_push, task_assign, modify, get_state, throw,
    mbind, mret, M_bind, M_ret; simpl.

Section Statements.

Implicit Types (st : state) (l : list val) (v : val).

Lemma set_tasks_twice v w st : set_tasks v (set_tasks w st) = set_tasks v st.
Proof. reflexivity. Qed.

Lemma set_tasks_same st : set_tasks (tasks st) st = st.
Proof. by destruct st. Qed.

Lemma saveTasks_run st :
  saveTasks st =
    let m := <[js "tasks" := JSON_stringify (tasks st)]> (localStorage st) in
    if decide (storage_used m ≤ quota st)
    then (Normal tt, set_localStorage m st)
    else (Throw QuotaExceededError, st).
Proof. reflexivity. Qed.

(** A persist that fails leaves the state as it was, and the statement
    that called it ends with the same exception. *)
Lemma saveTasks_Throw st e :
  fst (saveTasks st) = Throw e →
  saveTasks st = (Throw QuotaExceededError, st) ∧ e = QuotaExceededError.
Proof.
  rewrite saveTasks_run. simpl. case_decide; simpl; [done|].
  intros [= <-]. done.
Qed.

Lemma saveTasks_Normal st st' :
  saveTasks st = (Normal tt, st') →
  tasks st' = tasks st ∧
  localStorage st' !! js "tasks" = Some (JSON_stringify (tasks st)).
Proof.
  rewrite saveTasks_run. simpl. case_decide; [|done].
  intros [= <-]. split; [done|]. simpl. by rewrite lookup_insert_eq.
Qed.

Lemma saveTasks_tasks st : tasks (snd (saveTasks st)) = tasks st.
Proof. rewrite saveTasks_run. simpl. by case_decide. Qed.

Lemma renderTasks_state st : snd (renderTasks st) = st.
Proof.
  unfold renderTasks. stmt. destruct (tasks st); try done.
  by destruct (forallb renders _).
Qed.

Lemma renderTasks_Normal st st' c : renderTasks st = (c, st') → st' = st.
Proof. intros H. by rewrite <- (renderTasks_state st), H. Qed.

Lemma persist_failure_propagates (k : M unit) st e :
  fst (saveTasks st) = Throw e →
  (saveTasks;; k) st = (Throw QuotaExceededError, st).
Proof.
  intros [H _]%saveTasks_Throw. unfold mbind, M_bind. by rewrite H.
Qed.

(** [saveTasks(); renderTasks();], the tail of every mutating handler. *)
Lemma save_render_tasks st : tasks (snd ((saveTasks;; renderTasks) st)) = tasks st.
Proof.
  unfold mbind, M_bind. pose proof (saveTasks_tasks st) as H.
  destruct (saveTasks st) as [[[]|e] st1]; simpl in *; [|done].
  by rewrite renderTasks_state.
Qed.

Lemma save_render_Normal st st' :
  (saveTasks;; renderTasks) st = (Normal tt, st') →
  tasks st' = tasks st ∧
  localStorage st' !! js "tasks" = Some (JSON_stringify (tasks st)).
Proof.
  unfold mbind, M_bind.
  destruct (saveTasks st) as [[[]|e] st1] eqn:Hs; [|done].
  intros Hr. apply renderTasks_Normal in Hr as ->.
  by apply saveTasks_Normal.
Qed.

End Statements.

(** ** [splice] *)

Section Splice.

Context {A : Type}.
Implicit Types (l : list A) (x : A).

Lemma splice_remove_one i l : snd (splice i 1 [] l) = delete i l.
Proof.
  unfold splice; simpl. by rewrite delete_take_drop, Nat.add_1_r.
Qed.

Lemma splice_removed_one i l : head (fst (splice i 1 [] l)) = l !! i.
Proof.
  unfold splice; simpl. revert i.
  induction l as [|a l IH]; intros [|i]; simpl; done.
Qed.

Lemma splice_insert_one i x l :
  snd (splice i 0 [x] l) = take i l ++ x :: drop i l.
Proof. unfold splice; simpl. by rewrite Nat.add_0_r. Qed.

(** Moving: the element lands at index [j] of the result, and taking it
    out again gives the list without it. *)
Lemma move_lookup i j x l :
  j < length l → i < length l →
  (take j (delete i l) ++ x :: drop j (delete i l)) !! j = Some x.
Proof.
  intros Hj Hi.
  assert (length (delete i l) = length l - 1) as Hlen
    by (apply length_delete, lookup_lt_is_Some; lia).
  rewrite lookup_app_r; rewrite length_take; [|lia].
  replace (j - _) with 0 by lia. done.
Qed.

Lemma move_delete i j x l :
  j < length l → i < length l →
  delete j (take j (delete i l) ++ x :: drop j (delete i l)) = delete i l.
Proof.
  intros Hj Hi.
  assert (length (delete i l) = length l - 1) as Hlen
    by (apply length_delete, lookup_lt_is_Some; lia).
  assert (length (take j (delete i l)) = j) as Hk
    by (rewrite length_take; lia).
  rewrite <- Hk at 1. rewrite delete_middle. apply take_drop.
Qed.


End Splice.

(** * The task store *)

Section Reorder.

Implicit Types (st : state) (l : list val).

(** What [handleDrop] does once its guard has let the drop through. *)
Lemma handleDrop_run st l dragged targetIndex :
  tasks st = VArr l → draggedIndex st = Some dragged →
  dragged ≠ targetIndex →
  handleDrop targetIndex st =
    (saveTasks;; renderTasks)
      (set_tasks
         (VArr (take targetIndex (delete dragged l)
                ++ default VUndef (l !! dragged)
                   :: drop targetIndex (delete dragged l))) st).
Proof.
  intros Ht Hd Hne. unfold handleDrop. stmt. rewrite Hd.
  destruct (decide (dragged = targetIndex)) as [|_]; [done|].
  rewrite Ht. simpl. rewrite set_tasks_twice.
  pose proof (splice_removed_one dragged l) as Hr. unfold splice in Hr.
  simpl in Hr. rewrite Hr, Nat.add_0_r, Nat.add_1_r, <- delete_take_drop.
  done.
Qed.

(** The guard of [handleDrop]: no source, or the source itself. *)
Lemma handleDrop_skip st targetIndex :
  draggedIndex st = None ∨ draggedIndex st = Some targetIndex →
  handleDrop targetIndex st = (Normal tt, st).
Proof.
  intros [H|H]; unfold handleDrop; stmt; rewrite H; [done|].
  by rewrite decide_True.
Qed.



(** C2 (as amended). A drop on the row the drag started from, or a drop
    when no drag source is recorded, changes nothing: neither the list
    nor the storage, and nothing is thrown. *)
Theorem handleDrop_guard st targetIndex :
  draggedIndex st = None ∨ draggedIndex st = Some targetIndex →
  handleDrop targetIndex st = (Normal tt, st).
Proof. apply handleDrop_skip. Qed.

Lemma handleDrop_guard_witness :
  handleDrop 1 (mkState (VArr three_tasks) (Some 1) [] false ∅ 100)
  = (Normal tt, mkState (VArr three_tasks) (Some 1) [] false ∅ 100).
Proof. apply handleDrop_guard. right. reflexivity. Defined.

(** C2, the claim as stated fails: with one task in the list and a
    recorded drag source 5 (out of range), a drop on row 0 puts
    [undefined] in front of the task and persists the list. *)
Lemma handleDrop_out_of_range_mutates :
  draggedIndex stale_drag = Some 5
  ∧ tasks stale_drag = VArr [VStr (js "A")]
  ∧ tasks (snd (handleDrop 0 stale_drag)) = VArr [VUndef; VStr (js "A")]
  ∧ localStorage stale_drag !! js "tasks" = None
  ∧ localStorage (snd (handleDrop 0 stale_drag)) !! js "tasks"
    = Some (JSON_stringify (VArr [VUndef; VStr (js "A")]))
  ∧ handleDrop 0 stale_drag ≠ (Normal tt, stale_drag).
Proof. vm_compute. split_and!; done. Qed.

End Reorder.

Section TaskLists.

Implicit Types (st : state) (l : list Task) (t : Task).

Lemma task_val_inj : Inj (=) (=) task_val.
Proof. intros [] [] [=]. by subst. Qed.

Lemma task_list_inj : Inj (=) (=) task_list.
Proof.
  intros l1 l2 [= H]. revert l2 H.
  induction l1 as [|t l1 IH]; intros [|t2 l2] H; try done.
  rewrite !fmap_cons in H. injection H as H1 H2 H3 Hl.
  rewrite (IH l2 Hl). destruct t, t2; simpl in *. by subst.
Qed.

Lemma task_list_lookup l i : (task_val <$> l) !! i = task_val <$> l !! i.
Proof. apply list_lookup_fmap. Qed.

Lemma set_completed_task t b :
  set_prop (task_val t) (js "completed") (VBool b)
  = Some (task_val (mkTask (text t) b (createdAt t))).
Proof. reflexivity. Qed.

Lemma set_text_task t s :
  set_prop (task_val t) (js "text") (VStr s)
  = Some (task_val (mkTask s (completed t) (createdAt t))).
Proof. reflexivity. Qed.

Lemma renders_task_list l : forallb renders (task_val <$> l) = true.
Proof. by induction l. Qed.

Lemma renderTasks_task_list st l :
  tasks st = task_list l → renderTasks st = (Normal tt, st).
Proof.
  intros H. unfold renderTasks. stmt. rewrite H. simpl.
  by rewrite renders_task_list.
Qed.

Lemma task_assign_completed st l i t b :
  tasks st = task_list l → l !! i = Some t →
  task_assign i (js "completed") (VBool b) st
  = (Normal tt,
     set_tasks (task_list (<[i:=mkTask (text t) b (createdAt t)]> l)) st).
Proof.
  intros Ht Hi. stmt. rewrite Ht. simpl.
  rewrite task_list_lookup, Hi. simpl.
  unfold task_list. by rewrite list_fmap_insert.
Qed.

Lemma task_assign_text st l i t s :
  tasks st = task_list l → l !! i = Some t →
  task_assign i (js "text") (VStr s) st
  = (Normal tt,
     set_tasks (task_list (<[i:=mkTask s (completed t) (createdAt t)]> l)) st).
Proof.
  intros Ht Hi. stmt. rewrite Ht. simpl.
  rewrite task_list_lookup, Hi. simpl.
  unfold task_list. by rewrite list_fmap_insert.
Qed.

Lemma task_assign_no_row st l i k v :
  tasks st = task_list l → l !! i = None →
  task_assign i k v st = (Normal tt, st).
Proof.
  intros Ht Hi. stmt. rewrite Ht. simpl.
  by rewrite task_list_lookup, Hi.
Qed.

Lemma checkbox_change_run st l i t b :
  tasks st = task_list l → l !! i = Some t →
  checkbox_change i b st
  = (saveTasks;; renderTasks)
      (set_tasks (task_list (<[i:=mkTask (text t) b (createdAt t)]> l)) st).
Proof.
  intros Ht Hi. unfold checkbox_change.
  unfold mbind at 1, M_bind at 1.
  by rewrite (task_assign_completed st l i t b).
Qed.

Lemma editBtn_click_run st l i t newText :
  tasks st = task_list l → l !! i = Some t → trim newText ≠ [] →
  editBtn_click i true newText st
  = (saveTasks;; renderTasks)
      (set_tasks
         (task_list (<[i:=mkTask (trim newText) (completed t) (createdAt t)]> l))
         st).
Proof.
  intros Ht Hi Hne. unfold editBtn_click. cbn [negb].
  destruct (trim newText) as [|c s] eqn:Htrim; [done|]. cbn [truthy_string].
  unfold mbind, M_bind.
  by rewrite (task_assign_text st l i t (c :: s)).
Qed.

Lemma editBtn_click_discard st l i newText :
  tasks st = task_list l → trim newText = [] →
  editBtn_click i true newText st = (Normal tt, st).
Proof.
  intros Ht He. unfold editBtn_click. cbn [negb]. rewrite He.
  cbn [truthy_string]. unfold mbind, M_bind, mret, M_ret.
  by apply (renderTasks_task_list st l).
Qed.

End TaskLists.

Section Persist.

Implicit Types (st : state).

Lemma save_render_snd st :
  snd ((saveTasks;; renderTasks) st) =
    let m := <[js "tasks" := JSON_stringify (tasks st)]> (localStorage st) in
    if decide (storage_used m ≤ quota st) then set_localStorage m st else st.
Proof.
  unfold mbind, M_bind. rewrite saveTasks_run. cbv zeta.
  case_decide; [|done]. apply renderTasks_state.
Qed.

(** Persisting twice stores what persisting once stored. *)
Lemma save_render_idem st :
  snd ((saveTasks;; renderTasks) (snd ((saveTasks;; renderTasks) st)))
  = snd ((saveTasks;; renderTasks) st).
Proof.
  rewrite (save_render_snd st). cbv zeta. case_decide as Hq.
  - rewrite save_render_snd. cbv zeta.
    cbn [tasks localStorage quota set_localStorage].
    rewrite insert_insert_eq. by rewrite decide_True.
  - rewrite save_render_snd. cbv zeta. by rewrite decide_False.
Qed.

End Persist.

Section Add.

Implicit Types (st : state) (l : list val).

Lemma addTask_run st l now :
  tasks st = VArr l → trim (todoInput_value st) ≠ [] →
  addTask now st =
    (saveTasks;; renderTasks;; modify (set_todoInput_value []))
      (set_tasks
         (VArr (l ++ [task_val (mkTask (trim (todoInput_value st)) false now)]))
         st).
Proof.
  intros Ht Hne. unfold addTask. stmt.
  destruct (trim (todoInput_value st)) as [|c s] eqn:Htrim; [done|].
  simpl. by rewrite Ht.
Qed.

Lemma addTask_reject st now :
  trim (todoInput_value st) = [] → addTask now st = (Normal tt, st).
Proof. intros He. unfold addTask. stmt. by rewrite He. Qed.



End Add.

Section Remove.

Implicit Types (st : state) (l : list val).

Lemma removeBtn_click_run st l index :
  tasks st = VArr l →
  removeBtn_click index st
  = (saveTasks;; renderTasks) (set_tasks (VArr (delete index l)) st).
Proof.
  intros Ht. unfold removeBtn_click. stmt. rewrite Ht. simpl.
  by rewrite Nat.add_1_r, <- delete_take_drop.
Qed.

(** C7. [remove(index)]: for an index of the list, the list loses
    exactly the task at that index (what was before it stays in place,
    what was after it moves down by one) and is one shorter; for an
    index beyond the list, the list is unchanged. *)
Theorem removeBtn_click_removes st l index :
  tasks st = VArr l →
  let l' := delete index l in
  removeBtn_click index st = (saveTasks;; renderTasks) (set_tasks (VArr l') st)
  ∧ tasks (snd (removeBtn_click index st)) = VArr l'
  ∧ (index < length l →
       length l' = length l - 1
       ∧ l' = take index l ++ drop (S index) l
       ∧ (∀ j, j < index → l' !! j = l !! j)
       ∧ (∀ j, index ≤ j → l' !! j = l !! S j))
  ∧ (length l ≤ index → l' = l).
Proof.
  intros Ht l'.
  pose proof (removeBtn_click_run st l index Ht) as Hrun.
  split_and!.
  - done.
  - by rewrite Hrun, save_render_tasks.
  - intros Hi. split_and!.
    + apply length_delete, lookup_lt_is_Some. lia.
    + apply delete_take_drop.
    + intros j Hj. by apply list_lookup_delete_lt.
    + intros j Hj. by apply list_lookup_delete_ge.
  - intros Hi. subst l'. rewrite delete_take_drop.
    rewrite take_ge by lia. rewrite drop_ge by lia. apply app_nil_r.
Qed.

Lemma removeBtn_click_removes_witness :
  tasks (snd (removeBtn_click 1 (mkState (VArr three_tasks) None [] false ∅ 100)))
  = VArr [VStr (js "A"); VStr (js "C")].
Proof.
  refine (proj1 (proj2 (removeBtn_click_removes
    (mkState (VArr three_tasks) None [] false ∅ 100) three_tasks 1 _))).
  reflexivity.
Defined.

End Remove.

Section Edit.

Implicit Types (st : state) (l : list Task) (t : Task).



End Edit.

Section SetCompleted.

Implicit Types (st : state) (l : list Task) (t : Task).

(** C10. On a task list and an index of it, setting [completed] to
    [true] and then to [false] leaves the flag [false], the list being
    the original one when the flag was [false] before; and the same
    [setCompleted(i, v)] done [n >= 1] times leaves the state (list and
    storage) that doing it once leaves. *)
Theorem checkbox_change_idempotent st l index t :
  tasks st = task_list l → l !! index = Some t →
  let setCompleted v s := snd (checkbox_change index v s) in
  tasks (setCompleted false (setCompleted true st))
  = task_list (<[index:=mkTask (text t) false (createdAt t)]> l)
  ∧ (completed t = false →
       tasks (setCompleted false (setCompleted true st)) = tasks st)
  ∧ (∀ v n, Nat.iter (S n) (setCompleted v) st = setCompleted v st).
Proof.
  intros Ht Hi setCompleted.
  assert (index < length l) as Hlt by (by eapply lookup_lt_Some).
  assert (∀ v s l0 t0, tasks s = task_list l0 → l0 !! index = Some t0 →
            tasks (setCompleted v s)
            = task_list (<[index:=mkTask (text t0) v (createdAt t0)]> l0))
    as Hstep.
  { intros v s l0 t0 Hs H0. unfold setCompleted.
    rewrite (checkbox_change_run s l0 index t0) by done.
    by rewrite save_render_tasks. }
  assert (tasks (setCompleted false (setCompleted true st))
          = task_list (<[index:=mkTask (text t) false (createdAt t)]> l))
    as Htwice.
  { erewrite Hstep; [|by eapply Hstep|by apply list_lookup_insert_eq].
    simpl. by rewrite list_insert_insert_eq. }
  split_and!.
  - done.
  - intros Hc. rewrite Htwice, Ht. f_equal.
    apply list_insert_id. rewrite Hi. destruct t; simpl in *. by subst.
  - intros v. assert (setCompleted v (setCompleted v st) = setCompleted v st)
      as Hidem.
    { unfold setCompleted.
      rewrite (checkbox_change_run st l index t) by done.
      set (l1 := <[index:=mkTask (text t) v (createdAt t)]> l).
      set (st1 := snd ((saveTasks;; renderTasks) (set_tasks (task_list l1) st))).
      assert (tasks st1 = task_list l1) as H1
        by (subst st1; by rewrite save_render_tasks).
      rewrite (checkbox_change_run st1 l1 index (mkTask (text t) v (createdAt t)))
        by (try done; by apply list_lookup_insert_eq).
      simpl. subst l1. rewrite list_insert_insert_eq.
      rewrite <- H1, set_tasks_same. apply save_render_idem. }
    induction n as [|n IH]; [done|].
    change (Nat.iter (S (S n)) (setCompleted v) st)
      with (setCompleted v (Nat.iter (S n) (setCompleted v) st)).
    by rewrite IH.
Qed.

Lemma checkbox_change_idempotent_witness :
  tasks (snd (checkbox_change 0 false
           (snd (checkbox_change 0 true
              (mkState (task_list one_task) None [] false ∅ 200)))))
  = task_list [mkTask (js "Old") false (js "2024-05-01T10:00:00.000Z")].
Proof.
  refine (proj1 (checkbox_change_idempotent
    (mkState (task_list one_task) None [] false ∅ 200) one_task 0
    (mkTask (js "Old") true (js "2024-05-01T10:00:00.000Z")) _ _));
    reflexivity.
Defined.

End SetCompleted.

Section PersistFailure.

Implicit Types (st : state) (l : list val).

Lemma persist_fails_quota st :
  persist_fails st ↔
  quota st
  < storage_used (<[js "tasks":=JSON_stringify (tasks st)]> (localStorage st)).
Proof.
  unfold persist_fails. rewrite saveTasks_run. cbv zeta.
  case_decide; cbn [fst]; split.
  - by intros [e ?].
  - lia.
  - lia.
  - by exists QuotaExceededError.
Qed.

Lemma persist_fails_tail (k : M unit) st :
  persist_fails st → (saveTasks;; k) st = (Throw QuotaExceededError, st).
Proof. intros [e He]. by eapply persist_failure_propagates. Qed.

Lemma task_assign_run st l index task task' k v :
  tasks st = VArr l → l !! index = Some task →
  set_prop task k v = Some task' →
  task_assign index k v st
  = (Normal tt, set_tasks (VArr (<[index:=task']> l)) st).
Proof. intros Ht Hi Hs. stmt. by rewrite Ht, Hi, Hs. Qed.

(** C9. In every mutating operation the list is changed first and
    persisted second, and nothing catches what [saveTasks] throws: when
    the persist step fails, the operation ends with that exception, in
    the state where the list holds the mutation and the storage holds
    what it held before. *)
Theorem persist_failure_keeps_mutation st l :
  tasks st = VArr l →
  let failed l' := (Throw QuotaExceededError, set_tasks (VArr l') st) in
  (∀ now, trim (todoInput_value st) ≠ [] →
     let l' := l ++ [task_val (mkTask (trim (todoInput_value st)) false now)] in
     persist_fails (set_tasks (VArr l') st) → addTask now st = failed l')
  ∧ (∀ index,
       let l' := delete index l in
       persist_fails (set_tasks (VArr l') st) →
       removeBtn_click index st = failed l')
  ∧ (∀ index task task' checked,
       l !! index = Some task →
       set_prop task (js "completed") (VBool checked) = Some task' →
       let l' := <[index:=task']> l in
       persist_fails (set_tasks (VArr l') st) →
       checkbox_change index checked st = failed l')
  ∧ (∀ index task task' newText,
       l !! index = Some task → trim newText ≠ [] →
       set_prop task (js "text") (VStr (trim newText)) = Some task' →
       let l' := <[index:=task']> l in
       persist_fails (set_tasks (VArr l') st) →
       editBtn_click index true newText st = failed l')
  ∧ (∀ fromIndex toIndex task,
       draggedIndex st = Some fromIndex → l !! fromIndex = Some task →
       fromIndex ≠ toIndex →
       let l' := take toIndex (delete fromIndex l)
                 ++ task :: drop toIndex (delete fromIndex l) in
       persist_fails (set_tasks (VArr l') st) →
       handleDrop toIndex st = failed l')
  ∧ (persist_fails (set_tasks (VArr []) st) → deleteAllTasks st = failed [])
  ∧ (∀ l', tasks (snd (failed l')) = VArr l'
           ∧ localStorage (snd (failed l')) = localStorage st).
Proof.
  intros Ht failed. split_and!.
  - intros now Hne l' Hf. rewrite (addTask_run st l now) by done.
    by apply persist_fails_tail.
  - intros index l' Hf. rewrite (removeBtn_click_run st l) by done.
    by apply persist_fails_tail.
  - intros index task task' checked Hi Hs l' Hf. unfold checkbox_change.
    unfold mbind at 1, M_bind at 1.
    rewrite (task_assign_run st l index task task') by done.
    by apply persist_fails_tail.
  - intros index task task' newText Hi Hne Hs l' Hf. unfold editBtn_click.
    cbn [negb].
    destruct (trim newText) as [|c s] eqn:Htrim; [done|]. cbn [truthy_string].
    unfold mbind at 1 2, M_bind at 1 2.
    rewrite (task_assign_run st l index task task') by done.
    cbv beta iota. subst l' failed.
    destruct Hf as [e [He _]%saveTasks_Throw]. by rewrite He.
  - intros fromIndex toIndex task Hd Hi Hne l' Hf.
    rewrite (handleDrop_run st l fromIndex toIndex) by done. rewrite Hi.
    by apply persist_fails_tail.
  - intros Hf. unfold deleteAllTasks. unfold mbind at 1, M_bind at 1.
    unfold modify. by apply persist_fails_tail.
  - done.
Qed.

Lemma persist_failure_keeps_mutation_witness :
  addTask (js "2024-05-01T10:00:00.000Z") full_store
  = (Throw QuotaExceededError,
     set_tasks (VArr [task_val (mkTask (js "Buy milk") false
                                  (js "2024-05-01T10:00:00.000Z"))])
       full_store).
Proof.
  refine (proj1 (persist_failure_keeps_mutation full_store [] _)
            (js "2024-05-01T10:00:00.000Z") _ _).
  - reflexivity.
  - vm_compute. discriminate.
  - apply persist_fails_quota. vm_compute. lia.
Defined.

End PersistFailure.

(** ** [JSON.parse] after [JSON.stringify] *)

Section JsonStrings.

Local Open Scope N_scope.

Lemma hex_value_digit d : d < 16 → hex_value (hex_digit d) = Some d.
Proof.
  intros Hd. unfold hex_value, hex_digit, is_digit.
  destruct (N.ltb_spec d 10).
  - replace (48 <=? 48 + d) with true by (symmetry; apply N.leb_le; lia).
    replace (48 + d <=? 57) with true by (symmetry; apply N.leb_le; lia).
    simpl. f_equal. lia.
  - replace (97 + (d - 10) <=? 57) with false by (symmetry; apply N.leb_gt; lia).
    rewrite andb_false_r.
    replace (97 <=? 97 + (d - 10)) with true by (symmetry; apply N.leb_le; lia).
    replace (97 + (d - 10) <=? 102) with true by (symmetry; apply N.leb_le; lia).
    simpl. f_equal. lia.
Qed.

Lemma hex4_escape c :
  c < 0x10000 →
  hex4 (hex_digit ((c / 4096) mod 16)) (hex_digit ((c / 256) mod 16))
       (hex_digit ((c / 16) mod 16)) (hex_digit (c mod 16)) = Some c.
Proof.
  intros Hc. unfold hex4.
  rewrite !hex_value_digit by (apply N.mod_lt; lia).
  f_equal. zify. Z.to_euclidean_division_equations. lia.
Qed.

(** A code unit that a JSON string holds as it is. *)
Lemma parse_plain_unit c rest :
  (c =? 0x22) = false → (c =? 0x5C) = false → (c <? 0x20) = false →
  parse_string_chars (c :: rest) = cons_fst c (parse_string_chars rest).
Proof. intros H1 H2 H3. simpl. by rewrite H1, H2, H3. Qed.

Lemma parse_unicode_escape c rest :
  c < 0x10000 →
  parse_string_chars (unicode_escape c ++ rest)
  = cons_fst c (parse_string_chars rest).
Proof.
  intros Hc. unfold unicode_escape.
  change (parse_string_chars (_ ++ rest)) with
    (match hex4 (hex_digit ((c / 4096) mod 16)) (hex_digit ((c / 256) mod 16))
             (hex_digit ((c / 16) mod 16)) (hex_digit (c mod 16)) with
     | Some u => cons_fst u (parse_string_chars rest)
     | None => None
     end).
  by rewrite hex4_escape.
Qed.

Lemma parse_quote_unit c rest :
  c < 0x10000 →
  parse_string_chars (quote_unit c ++ rest)
  = cons_fst c (parse_string_chars rest).
Proof.
  intros Hc. unfold quote_unit.
  repeat match goal with
         | |- context [c =? ?k] =>
             destruct (N.eqb_spec c k) as [->|?]; [reflexivity|]
         end.
  destruct (_ || _) eqn:Hesc.
  - by apply parse_unicode_escape.
  - apply orb_false_elim in Hesc as [[H32 _]%orb_false_elim _].
    apply parse_plain_unit; [by apply N.eqb_neq..|done].
Qed.

Lemma surrogate_plain c :
  is_high_surrogate c || is_low_surrogate c = true →
  (c =? 0x22) = false ∧ (c =? 0x5C) = false ∧ (c <? 0x20) = false.
Proof.
  unfold is_high_surrogate, is_low_surrogate. intros H.
  assert (0xD800 ≤ c) as Hge.
  { apply orb_true_iff in H as [[H _]%andb_true_iff|[H _]%andb_true_iff];
      apply N.leb_le in H; lia. }
  split_and!; [apply N.eqb_neq; lia..|apply N.ltb_ge; lia].
Qed.

Lemma quote_body_cons c d s :
  quote_body (c :: d :: s)
  = if is_high_surrogate c && is_low_surrogate d
    then c :: d :: quote_body s
    else quote_unit c ++ quote_body (d :: s).
Proof. reflexivity. Qed.

Lemma parse_quote_body s :
  wf_string s → ∀ rest,
  parse_string_chars (quote_body s ++ 0x22 :: rest) = Some (s, rest).
Proof.
  remember (length s) as n eqn:Hn. revert s Hn.
  induction (lt_wf n) as [n _ IH]. intros s -> Hwf rest.
  destruct s as [|c s']; [done|].
  apply Forall_cons in Hwf as [Hc Hwf].
  destruct s' as [|d s''].
  - simpl. rewrite parse_quote_unit by done. done.
  - rewrite quote_body_cons. destruct (_ && _) eqn:Hpair.
    + apply andb_true_iff in Hpair as [Hh Hl].
      apply Forall_cons in Hwf as [Hd Hwf].
      destruct (surrogate_plain c) as (?&?&?); [by rewrite Hh|].
      destruct (surrogate_plain d) as (?&?&?); [by rewrite Hl, orb_true_r|].
      cbn [app]. rewrite !parse_plain_unit by done.
      assert (length s'' < length (c :: d :: s''))%nat as Hlen
        by (simpl; lia).
      by rewrite (IH _ Hlen s'' eq_refl Hwf rest).
    + rewrite <- app_assoc, parse_quote_unit by done.
      assert (length (d :: s'') < length (c :: d :: s''))%nat as Hlen
        by (simpl; lia).
      by rewrite (IH _ Hlen (d :: s'') eq_refl Hwf rest).
Qed.

Lemma parse_quote s rest :
  wf_string s →
  parse_string_chars (quote_body s ++ 0x22 :: rest) = Some (s, rest).
Proof. intros. by apply parse_quote_body. Qed.

End JsonStrings.

Ltac norm_app := repeat (progress (rewrite <- ?app_assoc; cbn [app])).

Section JsonValues.

Local Open Scope N_scope.

Implicit Types (t : Task) (l : list Task) (s r : jsstring) (f : nat).

Lemma stringify_task t : stringify (task_val t) = Some (task_text t).
Proof.
  unfold task_text. destruct t as [tx [] cr]; cbn -[quote];
    by rewrite <- ?app_assoc.
Qed.

Lemma stringify_task_list l :
  stringify (task_list l) = Some (0x5B :: join_comma (task_text <$> l) ++ [0x5D]).
Proof.
  cbn [task_list stringify]. do 4 f_equal.
  induction l as [|t l IH]; [done|].
  cbn [fmap list_fmap map]. rewrite stringify_task.
  change (default ?d (Some ?x)) with x. by f_equal.
Qed.

Lemma parse_value_string f s r :
  wf_string s → parse_value (S f) (quote s ++ r) = POk (VStr s) r.
Proof.
  intros Hwf. unfold quote. cbn [app].
  rewrite <- app_assoc. cbn [app].
  change (parse_value (S f) (0x22 :: ?x)) with
    (match parse_string_chars x with
     | Some (str, r') => POk (VStr str) r'
     | None => PSyntax
     end).
  by rewrite parse_quote.
Qed.

Lemma parse_value_bool f (b : bool) r :
  parse_value (S f) ((if b then js "true" else js "false") ++ r)
  = POk (VBool b) r.
Proof. destruct b; reflexivity. Qed.

Lemma parse_members_key f k body :
  wf_string k →
  parse_members (S f) (quote k ++ 0x3A :: body)
  = pbind (parse_value f body)
      (λ v r3, after_item 0x2C 0x7D r3 (parse_members f) (k, v)).
Proof.
  intros Hwf. unfold quote. cbn [app].
  rewrite <- app_assoc. cbn [app].
  change (parse_members (S f) (0x22 :: ?x)) with
    (match parse_string_chars x with
     | None => PSyntax
     | Some (k, r1) =>
         match skip_ws r1 with
         | [] => PSyntax
         | d :: r2 =>
             if d =? 0x3A then
               pbind (parse_value f r2)
                 (λ v r3, after_item 0x2C 0x7D r3 (parse_members f) (k, v))
             else PSyntax
         end
     end).
  by rewrite parse_quote.
Qed.

Lemma wf_string_js (x : string) :
  Forall (λ a, N_of_ascii a < 0x10000) (list_ascii_of_string x) →
  wf_string (js x).
Proof.
  unfold wf_string. induction x as [|a x IH]; simpl; [done|].
  intros [Ha Hx]%Forall_cons. constructor; auto.
Qed.

Lemma parse_task f t r :
  wf_task t →
  parse_value (5 + f) (task_text t ++ r) = POk (task_val t) r.
Proof.
  intros [Htx Hcr].
  assert (wf_string (js "text") ∧ wf_string (js "completed")
          ∧ wf_string (js "createdAt")) as (K1 & K2 & K3).
  { split_and!; apply wf_string_js; repeat constructor. }
  unfold task_text. norm_app.
  change (parse_value (5 + f) (0x7B :: ?x)) with
    (match skip_ws x with
     | [] => PSyntax
     | d :: r' =>
         if d =? 0x7D then POk (VObj []) r'
         else pbind (parse_members (4 + f)%nat x)
                (λ ms r'', POk (obj_of_members ms) r'')
     end).
  change (skip_ws (quote (js "text") ++ ?x))
    with (0x22 :: quote_body (js "text") ++ 0x22 :: x).
  cbn match. cbn [N.eqb Pos.eqb].
  change (4 + f)%nat with (S (3 + f)).
  rewrite parse_members_key by done.
  change (3 + f)%nat with (S (2 + f)) at 1.
  rewrite parse_value_string by done. cbn [pbind].
  change (after_item 0x2C 0x7D (0x2C :: ?x) ?more ?y)
    with (pbind (more x) (λ xs r', POk (y :: xs) r')).
  change (3 + f)%nat with (S (2 + f)).
  rewrite parse_members_key by done.
  change (2 + f)%nat with (S (1 + f)) at 1.
  rewrite parse_value_bool. cbn [pbind].
  change (after_item 0x2C 0x7D (0x2C :: ?x) ?more ?y)
    with (pbind (more x) (λ xs r', POk (y :: xs) r')).
  change (2 + f)%nat with (S (1 + f)).
  rewrite parse_members_key by done.
  change (1 + f)%nat with (S f) at 1.
  rewrite parse_value_string by done. cbn [pbind].
  change (after_item 0x2C 0x7D (0x7D :: ?x) ?more ?y) with (POk [y] x).
  reflexivity.
Qed.

Lemma parse_task_elements l r f :
  Forall wf_task l → l ≠ [] →
  parse_elements (length l + 5 + f) (join_comma (task_text <$> l) ++ 0x5D :: r)
  = POk (task_val <$> l) r.
Proof.
  intros Hwf. revert f. induction Hwf as [|t l Ht Hl IH]; intros f Hne; [done|].
  change (length (t :: l) + 5 + f)%nat with (S (length l + 5 + f)).
  cbn [parse_elements].
  destruct l as [|t' l'].
  - cbn [fmap list_fmap join_comma length].
    change (0 + 5 + f)%nat with (5 + f)%nat.
    rewrite parse_task by done. reflexivity.
  - change (join_comma (task_text <$> t :: t' :: l'))
      with (task_text t ++ 0x2C :: join_comma (task_text <$> t' :: l')).
    rewrite <- app_assoc. cbn [app].
    replace (length (t' :: l') + 5 + f)%nat
      with (5 + (length (t' :: l') + f))%nat at 1 by lia.
    rewrite parse_task by done. cbn [pbind].
    change (after_item 0x2C 0x5D (0x2C :: ?x) ?more ?y)
      with (pbind (more x) (λ xs r', POk (y :: xs) r')).
    rewrite IH by done. reflexivity.
Qed.

Lemma task_text_length t : (1 ≤ length (task_text t))%nat.
Proof. unfold task_text. simpl. lia. Qed.

Lemma join_comma_length l :
  (length l ≤ length (join_comma (task_text <$> l)))%nat.
Proof.
  induction l as [|t [|t' l'] IH]; [done| |].
  - simpl. pose proof (task_text_length t). lia.
  - change (join_comma (task_text <$> t :: t' :: l'))
      with (task_text t ++ 0x2C :: join_comma (task_text <$> t' :: l')).
    rewrite length_app. simpl in *. lia.
Qed.

(** Decoding the encoding of a list of tasks gives the list back. *)
Lemma JSON_roundtrip l :
  Forall wf_task l →
  JSON_parse (JSON_stringify (task_list l)) = Some (task_list l).
Proof.
  intros Hwf. unfold JSON_stringify. rewrite stringify_task_list.
  change (default ?d (Some ?x)) with x. unfold JSON_parse, fuel_for.
  destruct l as [|t l']; [reflexivity|].
  set (l := t :: l') in *.
  set (body := join_comma (task_text <$> l)).
  set (blob := 0x5B :: body ++ [0x5D]).
  assert (∃ f, 2 * length blob = length l + 5 + f)%nat as [f Hf].
  { pose proof (join_comma_length l) as Hlen. fold body in Hlen.
    assert (1 ≤ length l)%nat by (subst l; cbn [length]; lia).
    exists (2 * length blob - (length l + 5))%nat.
    subst blob. cbn [length]. rewrite length_app. cbn [length]. lia. }
  rewrite Nat.add_1_r, Hf. subst blob.
  assert (∃ c rest, body = 0x7B :: c :: rest) as (c & rest & Hbody).
  { subst body l. destruct l'; unfold task_text; simpl; eauto. }
  change (parse_value (S ?n) (0x5B :: ?x)) with
    (match skip_ws x with
     | [] => PSyntax
     | d :: r' =>
         if d =? 0x5D then POk (VArr []) r'
         else pbind (parse_elements n x) (λ vs r'', POk (VArr vs) r'')
     end).
  rewrite Hbody at 1. cbn [app skip_ws is_json_ws N.eqb Pos.eqb orb].
  subst body. rewrite parse_task_elements by done. reflexivity.
Qed.

End JsonValues.

(** ** [trim] and blank strings *)

Section Trim.

Implicit Types (s : jsstring).

Lemma trim_start_nil s : trim_start s = [] ↔ blank s = true.
Proof.
  induction s as [|c s IH]; simpl; [by split|].
  destruct (is_white_space c); simpl; [exact IH|]. split; discriminate.
Qed.

Lemma trim_end_nil s : trim_end s = [] ↔ blank s = true.
Proof.
  induction s as [|c s IH]; simpl; [by split|].
  destruct (trim_end s) as [|d r].
  - destruct (is_white_space c); simpl; [tauto|]. split; discriminate.
  - split; [discriminate|]. intros [_ H]%andb_true_iff.
    apply IH in H. discriminate.
Qed.

Lemma blank_trim_start s : blank (trim_start s) = blank s.
Proof.
  induction s as [|c s IH]; simpl; [done|].
  by destruct (is_white_space c) eqn:Hc; simpl; rewrite ?Hc.
Qed.

Lemma blank_trim_end s : blank (trim_end s) = blank s.
Proof.
  induction s as [|c s IH]; simpl; [done|].
  destruct (trim_end s) as [|d r] eqn:He.
  - apply trim_end_nil in He. rewrite He, andb_true_r.
    by destruct (is_white_space c) eqn:Hc; simpl; rewrite ?Hc.
  - cbn [blank forallb] in *. by rewrite IH.
Qed.

Lemma blank_trim s : blank (trim s) = blank s.
Proof. unfold trim. by rewrite blank_trim_end, blank_trim_start. Qed.

(** The test [if (!text)] of the script, on the trimmed text, is the
    test for a blank text. *)
Lemma trim_nil s : trim s = [] ↔ blank s = true.
Proof. unfold trim. by rewrite trim_end_nil, blank_trim_start. Qed.

Lemma trim_not_blank s : trim s ≠ [] → blank (trim s) = false.
Proof.
  rewrite blank_trim, trim_nil. by destruct (blank s).
Qed.

End Trim.

(** ** [loadTasks] *)

Section Load.

Implicit Types (st : state).

Lemma JSON_parse_empty : JSON_parse [] = None.
Proof. reflexivity. Qed.

Lemma loadTasks_run st :
  loadTasks st =
    (Normal tt,
     set_tasks
       (match localStorage st !! js "tasks" with
        | Some s => default (VArr []) (JSON_parse s)
        | None => VArr []
        end) st).
Proof.
  unfold loadTasks, getItem, try_catch, JSON_parse_stmt.
  unfold modify, throw, mbind, mret, M_bind, M_ret.
  destruct (localStorage st !! js "tasks") as [s|]; [|done].
  destruct s as [|c s]; [done|]. cbn [truthy_string].
  by destruct (JSON_parse (c :: s)).
Qed.

(** C3 (as amended). [loadTasks] never throws.  It leaves the empty
    list when nothing is stored under ['tasks'], and when what is stored
    is not JSON (the SyntaxError of [JSON.parse] is caught); what is
    stored and is JSON becomes [tasks] as it was parsed. *)
Theorem loadTasks_tolerant st :
  fst (loadTasks st) = Normal tt
  ∧ (localStorage st !! js "tasks" = None →
       loadTasks st = (Normal tt, set_tasks (VArr []) st))
  ∧ (∀ s, localStorage st !! js "tasks" = Some s → JSON_parse s = None →
       loadTasks st = (Normal tt, set_tasks (VArr []) st))
  ∧ (∀ s v, localStorage st !! js "tasks" = Some s → JSON_parse s = Some v →
       loadTasks st = (Normal tt, set_tasks v st)).
Proof.
  rewrite loadTasks_run. split_and!.
  - done.
  - by intros ->.
  - by intros s -> ->.
  - by intros s v -> ->.
Qed.

End Load.

Section LoadExamples.

Lemma loadTasks_tolerant_witness :
  loadTasks corrupted_store = (Normal tt, set_tasks (VArr []) corrupted_store).
Proof.
  refine (proj1 (proj2 (proj2 (loadTasks_tolerant corrupted_store)))
            (js "[{") _ _); reflexivity.
Defined.

(** C3, the claim as stated fails: the blob [{}] is present and does not
    decode to a list of tasks, and [loadTasks] leaves the object it
    decodes to in [tasks], not the empty list. *)
Lemma loadTasks_adopts_non_list :
  localStorage foreign_store !! js "tasks" = Some (js "{}")
  ∧ (∀ l, JSON_parse (js "{}") ≠ Some (task_list l))
  ∧ loadTasks foreign_store = (Normal tt, set_tasks (VObj []) foreign_store)
  ∧ tasks (snd (loadTasks foreign_store)) ≠ VArr [].
Proof.
  split_and!; [reflexivity | by intros l | reflexivity | by vm_compute].
Qed.

End LoadExamples.

Section RoundTrip.

Implicit Types (st : state) (l : list Task).

(** C5. For a list of tasks (strings being sequences of 16-bit code
    units), decoding the blob that encodes it gives the list back: same
    tasks (text, completed, createdAt), same order.  So [loadTasks] right
    after a [saveTasks] that completed changes nothing, and persist
    followed by load is persist alone; and whatever [tasks] holds when
    [loadTasks] runs on what [saveTasks] stored, it gets the list that
    was saved. *)
Theorem persist_load_roundtrip st l :
  tasks st = task_list l → Forall wf_task l →
  JSON_parse (JSON_stringify (task_list l)) = Some (task_list l)
  ∧ (saveTasks;; loadTasks) st = saveTasks st
  ∧ (∀ st', saveTasks st = (Normal tt, st') →
       loadTasks st' = (Normal tt, st') ∧ tasks st' = task_list l)
  ∧ (∀ st' w, saveTasks st = (Normal tt, st') →
       loadTasks (set_tasks w st') = (Normal tt, st')).
Proof.
  intros Ht Hwf.
  assert (∀ st', saveTasks st = (Normal tt, st') →
            loadTasks st' = (Normal tt, st') ∧ tasks st' = task_list l) as H.
  { intros st' [Hts Hblob]%saveTasks_Normal.
    rewrite loadTasks_run, Hblob, Ht, JSON_roundtrip by done.
    cbn [default from_option id]. rewrite <- Ht, <- Hts.
    by rewrite set_tasks_same, Hts. }
  split_and!; [by apply JSON_roundtrip| |done|].
  - unfold mbind, M_bind.
    destruct (saveTasks st) as [[[]|e] st'] eqn:Hs; [|done].
    by destruct (H st' eq_refl) as [-> _].
  - intros st' w [Hts Hblob]%saveTasks_Normal.
    rewrite loadTasks_run. cbn [localStorage set_tasks].
    rewrite Hblob, Ht, JSON_roundtrip by done.
    cbn [default from_option id]. rewrite set_tasks_twice.
    rewrite <- Ht, <- Hts. by rewrite set_tasks_same.
Qed.

Lemma persist_load_roundtrip_witness :
  JSON_parse (JSON_stringify (task_list [milk])) = Some (task_list [milk]).
Proof.
  refine (proj1 (persist_load_roundtrip
    (mkState (task_list [milk]) None [] false ∅ 200) [milk] _ _)).
  - reflexivity.
  - repeat constructor; apply wf_string_js; repeat constructor.
Defined.

End RoundTrip.

(** ** What the handlers keep *)

Section Keep.

Variable P : Task → Prop.

Implicit Types (st : state) (l : list Task) (t : Task).

Lemma addTask_tasks st (l : list val) now :
  tasks st = VArr l → trim (todoInput_value st) ≠ [] →
  tasks (snd (addTask now st))
  = VArr (l ++ [task_val (mkTask (trim (todoInput_value st)) false now)]).
Proof.
  intros Ht Hne. rewrite (addTask_run st l now) by done.
  unfold mbind, M_bind.
  match goal with |- context [saveTasks ?s] =>
    pose proof (saveTasks_tasks s) as Hs;
    destruct (saveTasks s) as [[[]|e] st1] end; [|done].
  pose proof (renderTasks_state st1) as Hr.
  destruct (renderTasks st1) as [[[]|e] st2]; simpl in *; by subst.
Qed.

Lemma addTask_keeps st now :
  (trim (todoInput_value st) ≠ [] →
   P (mkTask (trim (todoInput_value st)) false now)) →
  tasks_satisfy P st → tasks_satisfy P (snd (addTask now st)).
Proof.
  intros Hnew (l & Ht & Hl).
  destruct (decide (trim (todoInput_value st) = [])) as [He|Hne].
  - rewrite addTask_reject by done. by exists l.
  - exists (l ++ [mkTask (trim (todoInput_value st)) false now]). split.
    + rewrite (addTask_tasks st (task_val <$> l)) by done.
      unfold task_list. by rewrite fmap_app.
    + apply Forall_app. split; [done|]. constructor; auto.
Qed.

Lemma removeBtn_click_keeps st index :
  tasks_satisfy P st → tasks_satisfy P (snd (removeBtn_click index st)).
Proof.
  intros (l & Ht & Hl). exists (delete index l). split.
  - rewrite (removeBtn_click_run st (task_val <$> l)) by done.
    rewrite save_render_tasks. unfold task_list. cbn [tasks set_tasks].
    by rewrite list_fmap_delete.
  - by apply Forall_delete.
Qed.

Lemma checkbox_change_keeps st index checked :
  (∀ t, P t → P (mkTask (text t) checked (createdAt t))) →
  tasks_satisfy P st → tasks_satisfy P (snd (checkbox_change index checked st)).
Proof.
  intros HP (l & Ht & Hl). destruct (l !! index) as [t|] eqn:Hi.
  - exists (<[index:=mkTask (text t) checked (createdAt t)]> l). split.
    + rewrite (checkbox_change_run st l index t) by done.
      by rewrite save_render_tasks.
    + apply Forall_insert; [done|]. apply HP. by eapply Forall_lookup_1.
  - exists l. split; [|done]. unfold checkbox_change.
    unfold mbind at 1, M_bind at 1.
    rewrite (task_assign_no_row st l) by done.
    by rewrite save_render_tasks.
Qed.

Lemma editBtn_click_keeps st index isEditing textContent :
  (∀ t, P t → trim textContent ≠ [] →
        P (mkTask (trim textContent) (completed t) (createdAt t))) →
  tasks_satisfy P st →
  tasks_satisfy P (snd (editBtn_click index isEditing textContent st)).
Proof.
  intros HP (l & Ht & Hl). destruct isEditing; [|by exists l].
  destruct (decide (trim textContent = [])) as [He|Hne].
  - rewrite (editBtn_click_discard st l) by done. by exists l.
  - destruct (l !! index) as [t|] eqn:Hi.
    + exists (<[index:=mkTask (trim textContent) (completed t) (createdAt t)]> l).
      split.
      * rewrite (editBtn_click_run st l index t) by done.
        by rewrite save_render_tasks.
      * apply Forall_insert; [done|]. apply HP; [|done].
        by eapply Forall_lookup_1.
    + exists l. split; [|done]. unfold editBtn_click. cbn [negb].
      destruct (trim textContent) as [|c s]; [done|]. cbn [truthy_string].
      pose proof (save_render_tasks st) as Hsr.
      unfold mbind, M_bind in *.
      rewrite (task_assign_no_row st l) by done.
      cbv beta iota. by rewrite Hsr.
Qed.

Lemma handleDrop_keeps st targetIndex :
  drag_in_range st →
  tasks_satisfy P st → tasks_satisfy P (snd (handleDrop targetIndex st)).
Proof.
  intros Hd (l & Ht & Hl).
  destruct (draggedIndex st) as [d|] eqn:Hdrag;
    [|rewrite handleDrop_skip by auto; by exists l].
  destruct (decide (d = targetIndex)) as [->|Hne];
    [rewrite handleDrop_skip by auto; by exists l|].
  assert (d < length l) as Hlt.
  { specialize (Hd d (task_val <$> l) Hdrag Ht).
    by rewrite length_fmap in Hd. }
  destruct (lookup_lt_is_Some_2 l d Hlt) as [t Hi].
  exists (take targetIndex (delete d l) ++ t :: drop targetIndex (delete d l)).
  split.
  - rewrite (handleDrop_run st (task_val <$> l) d targetIndex) by done.
    rewrite save_render_tasks. cbn [tasks set_tasks].
    rewrite task_list_lookup, Hi. unfold task_list. cbn [fmap option_fmap option_map default from_option id].
    rewrite fmap_app, fmap_cons, fmap_take, fmap_drop, list_fmap_delete.
    done.
  - apply Forall_app. split; [by apply Forall_take, Forall_delete|].
    constructor; [by eapply Forall_lookup_1|].
    by apply Forall_drop, Forall_delete.
Qed.

Lemma deleteAllTasks_keeps st : tasks_satisfy P (snd (deleteAllTasks st)).
Proof.
  exists []. split; [|done]. unfold deleteAllTasks.
  unfold mbind at 1, M_bind at 1, modify.
  by rewrite save_render_tasks.
Qed.

Lemma handleDragStart_keeps st index :
  tasks_satisfy P st → tasks_satisfy P (snd (handleDragStart index st)).
Proof. done. Qed.

Lemma handleDragEnd_keeps st :
  tasks_satisfy P st → tasks_satisfy P (snd (handleDragEnd st)).
Proof. done. Qed.

Lemma loadTasks_keeps st :
  localStorage st !! js "tasks" = None
  ∨ (∃ s, localStorage st !! js "tasks" = Some s ∧ JSON_parse s = None)
  ∨ (∃ l, localStorage st !! js "tasks" = Some (JSON_stringify (task_list l))
          ∧ Forall wf_task l ∧ Forall P l) →
  tasks_satisfy P (snd (loadTasks st)).
Proof.
  rewrite loadTasks_run. cbn [snd tasks set_tasks].
  intros [->|[(s & -> & ->)|(l & -> & Hwf & Hl)]];
    [by exists [] | by exists [] |].
  rewrite JSON_roundtrip by done. by exists l.
Qed.

End Keep.

Section Invariant.

Implicit Types (st : state).

(** C4 (as amended). From a state where no task has a blank text,
    [add], [remove], [setCompleted], [editText], [clearAll], and
    [reorder] when the drag source is a row of the list, lead to a state
    where no task has a blank text.  [load] leads to such a state when
    nothing is stored, when what is stored is not JSON, and when what is
    stored is the encoding of a list without blank texts. *)
Theorem operations_keep_texts_nonblank st :
  no_blank_text st →
  (∀ now, no_blank_text (snd (addTask now st)))
  ∧ (∀ index, no_blank_text (snd (removeBtn_click index st)))
  ∧ (∀ index checked, no_blank_text (snd (checkbox_change index checked st)))
  ∧ (∀ index isEditing textContent,
       no_blank_text (snd (editBtn_click index isEditing textContent st)))
  ∧ (∀ targetIndex, drag_in_range st →
       no_blank_text (snd (handleDrop targetIndex st)))
  ∧ no_blank_text (snd (deleteAllTasks st))
  ∧ (localStorage st !! js "tasks" = None
     ∨ (∃ s, localStorage st !! js "tasks" = Some s ∧ JSON_parse s = None)
     ∨ (∃ l, localStorage st !! js "tasks" = Some (JSON_stringify (task_list l))
             ∧ Forall wf_task l ∧ Forall nonblank_text l) →
     no_blank_text (snd (loadTasks st))).
Proof.
  intros Hinv. split_and!.
  - intros now. apply addTask_keeps; [|done]. apply trim_not_blank.
  - intros index. by apply removeBtn_click_keeps.
  - intros index checked. by apply checkbox_change_keeps.
  - intros index isEditing textContent. apply editBtn_click_keeps; [|done].
    intros t _. apply trim_not_blank.
  - intros targetIndex Hd. by apply handleDrop_keeps.
  - apply deleteAllTasks_keeps.
  - apply loadTasks_keeps.
Qed.

Lemma operations_keep_texts_nonblank_witness :
  no_blank_text (snd (addTask (js "2024-05-02T10:00:00.000Z") one_nonblank)).
Proof.
  refine (proj1 (operations_keep_texts_nonblank one_nonblank _)
            (js "2024-05-02T10:00:00.000Z")).
  eexists. split; [reflexivity|]. repeat constructor.
Defined.

(** C4, the claim as stated fails for [load]: the list is empty before,
    and holds a task whose text is a space after. *)
Lemma loadTasks_admits_blank_text :
  no_blank_text blank_blob_store
  ∧ tasks (snd (loadTasks blank_blob_store))
    = task_list [mkTask (js " ") false (js "x")]
  ∧ ¬ no_blank_text (snd (loadTasks blank_blob_store)).
Proof.
  assert (tasks (snd (loadTasks blank_blob_store))
          = task_list [mkTask (js " ") false (js "x")]) as Hload
    by reflexivity.
  split_and!.
  - by exists [].
  - done.
  - intros (l & Hl & Hnb). rewrite Hload in Hl.
    apply task_list_inj in Hl as <-.
    by apply Forall_cons in Hnb as [Hnb _].
Qed.

End Invariant.

Section WellFormed.

Implicit Types (st : state) (s : jsstring).

Lemma wf_trim_start s : wf_string s → wf_string (trim_start s).
Proof.
  unfold wf_string. induction 1 as [|c s Hc Hs IH]; simpl; [done|].
  destruct (is_white_space c); [done|by constructor].
Qed.

Lemma wf_trim_end s : wf_string s → wf_string (trim_end s).
Proof.
  unfold wf_string. induction 1 as [|c s Hc Hs IH]; simpl; [done|].
  destruct (trim_end s); [|by constructor].
  destruct (is_white_space c); by repeat constructor.
Qed.

Lemma wf_trim s : wf_string s → wf_string (trim s).
Proof. intros. by apply wf_trim_end, wf_trim_start. Qed.

(** The lists that the operations build are lists of tasks whose strings
    are sequences of code units: the lists that encoding and decoding
    give back. *)
Lemma operations_build_task_lists st :
  tasks_satisfy wf_task st →
  (∀ now, wf_string (todoInput_value st) → wf_string now →
     tasks_satisfy wf_task (snd (addTask now st)))
  ∧ (∀ index, tasks_satisfy wf_task (snd (removeBtn_click index st)))
  ∧ (∀ index checked,
       tasks_satisfy wf_task (snd (checkbox_change index checked st)))
  ∧ (∀ index isEditing textContent, wf_string textContent →
       tasks_satisfy wf_task
         (snd (editBtn_click index isEditing textContent st)))
  ∧ (∀ targetIndex, drag_in_range st →
       tasks_satisfy wf_task (snd (handleDrop targetIndex st)))
  ∧ tasks_satisfy wf_task (snd (deleteAllTasks st)).
Proof.
  intros Hinv. split_and!.
  - intros now Hin Hnow. apply addTask_keeps; [|done].
    intros _. split; [by apply wf_trim | done].
  - intros index. by apply removeBtn_click_keeps.
  - intros index checked. apply checkbox_change_keeps; [|done].
    by intros t [??].
  - intros index isEditing textContent Hs. apply editBtn_click_keeps; [|done].
    intros t [_ ?] _. split; [by apply wf_trim | done].
  - intros targetIndex Hd. by apply handleDrop_keeps.
  - apply deleteAllTasks_keeps.
Qed.

End WellFormed.

(** ** The fuel of [JSON.parse] never runs out *)

Section Fuel.

Implicit Types (s r : jsstring) (f : nat).

Lemma parse_value_S f s :
  parse_value (S f) s =
    match skip_ws s with
    | [] => PSyntax
    | c :: r =>
        if (c =? 0x7B)%N then
          match skip_ws r with
          | [] => PSyntax
          | d :: r' =>
              if (d =? 0x7D)%N then POk (VObj []) r'
              else pbind (parse_members f r)
                         (λ ms r'', POk (obj_of_members ms) r'')
          end
        else if (c =? 0x5B)%N then
          match skip_ws r with
          | [] => PSyntax
          | d :: r' =>
              if (d =? 0x5D)%N then POk (VArr []) r'
              else pbind (parse_elements f r) (λ vs r'', POk (VArr vs) r'')
          end
        else parse_scalar (c :: r)
    end.
Proof. reflexivity. Qed.

Lemma parse_elements_S f s :
  parse_elements (S f) s =
    pbind (parse_value f s)
          (λ v r, after_item 0x2C 0x5D r (parse_elements f) v).
Proof. reflexivity. Qed.

Lemma parse_members_S f s :
  parse_members (S f) s =
    match skip_ws s with
    | [] => PSyntax
    | c :: r =>
        if (c =? 0x22)%N then
          match parse_string_chars r with
          | None => PSyntax
          | Some (k, r1) =>
              match skip_ws r1 with
              | [] => PSyntax
              | d :: r2 =>
                  if (d =? 0x3A)%N then
                    pbind (parse_value f r2)
                          (λ v r3, after_item 0x2C 0x7D r3
                                     (parse_members f) (k, v))
                  else PSyntax
              end
          end
        else PSyntax
    end.
Proof. reflexivity. Qed.

Lemma skip_ws_length s : length (skip_ws s) ≤ length s.
Proof.
  induction s as [|c s IH]; simpl; [done|].
  destruct (is_json_ws c); simpl; lia.
Qed.

Lemma skip_ws_cons s c r : skip_ws s = c :: r → length r < length s.
Proof. intros H. pose proof (skip_ws_length s) as Hl. rewrite H in Hl. simpl in Hl. lia. Qed.

Lemma cons_fst_Some {A} c (x : option (jsstring * A)) y a :
  cons_fst c x = Some (y, a) → ∃ y', x = Some (y', a) ∧ y = c :: y'.
Proof. destruct x as [[y' a']|]; simpl; [|done]. intros [= <- <-]. eauto. Qed.

Lemma parse_string_chars_length s x r :
  parse_string_chars s = Some (x, r) → length r < length s.
Proof.
  remember (length s) as n eqn:Hn. revert s x r Hn.
  induction (lt_wf n) as [n _ IH]. intros s x r -> H.
  destruct s as [|c s]; [done|]. simpl in H.
  destruct (c =? 34)%N.
  { injection H as <- <-. simpl. lia. }
  destruct (c =? 92)%N.
  - destruct s as [|e s]; [done|].
    destruct (e =? 117)%N.
    + destruct s as [|h1 [|h2 [|h3 [|h4 s]]]]; try done.
      destruct (hex4 h1 h2 h3 h4); [|done].
      apply cons_fst_Some in H as (y & H & _).
      eapply (IH (length s)) in H; simpl; try done; lia.
    + destruct (simple_escape e); [|done].
      apply cons_fst_Some in H as (y & H & _).
      eapply (IH (length s)) in H; simpl; try done; lia.
  - destruct (c <? 32)%N; [done|].
    apply cons_fst_Some in H as (y & H & _).
    eapply (IH (length s)) in H; simpl; try done; lia.
Qed.

Lemma strip_prefix_length p s r :
  strip_prefix p s = Some r → length s = length p + length r.
Proof.
  revert s. induction p as [|a p IH]; intros s; simpl.
  - by intros [= ->].
  - destruct s as [|b s]; [done|]. destruct (a =? b)%N; [|done].
    intros H%IH. simpl. lia.
Qed.

Lemma span_digits_length s d r :
  span_digits s = (d, r) → length r ≤ length s.
Proof.
  revert d r. induction s as [|c s IH]; intros d r; simpl.
  - by intros [= <- <-].
  - destruct (is_digit c).
    + destruct (span_digits s) as [d' r'] eqn:Hs. intros [= <- <-].
      specialize (IH d' r' eq_refl). lia.
    + intros [= <- <-]. simpl. lia.
Qed.

Lemma parse_int_length s d r :
  parse_int s = Some (d, r) → length r < length s.
Proof.
  destruct s as [|c s]; simpl; [done|].
  destruct (c =? 48)%N; [intros [= <- <-]; lia|].
  destruct (is_digit c); [|done].
  destruct (span_digits s) as [d' r'] eqn:Hs. intros [= <- <-].
  apply span_digits_length in Hs. lia.
Qed.

Lemma parse_frac_length s d r :
  parse_frac s = Some (d, r) → length r ≤ length s.
Proof.
  destruct s as [|c s]; simpl; [by intros [= <- <-]|].
  destruct (c =? 46)%N; [|intros [= <- <-]; simpl; lia].
  destruct (span_digits s) as [[|x d'] r'] eqn:Hs; [done|].
  intros [= <- <-]. apply span_digits_length in Hs. lia.
Qed.

Lemma parse_exp_length s d r :
  parse_exp s = Some (d, r) → length r ≤ length s.
Proof.
  destruct s as [|c s]; simpl; [by intros [= <- <-]|].
  destruct (_ || _); [|intros [= <- <-]; simpl; lia].
  destruct s as [|g s]; simpl; [done|].
  destruct (_ || _).
  - destruct (span_digits s) as [[|x d'] r'] eqn:Hs; [done|].
    intros [= <- <-]. apply span_digits_length in Hs. lia.
  - destruct (span_digits (g :: s)) as [[|x d'] r'] eqn:Hs; [done|].
    intros [= <- <-]. apply span_digits_length in Hs. simpl in Hs. lia.
Qed.

Lemma parse_number_length s d r :
  parse_number s = Some (d, r) → length r < length s.
Proof.
  unfold parse_number.
  assert (∃ m s0, match s with
                  | c :: s' => if (c =? 45)%N then ([c], s') else ([], s)
                  | [] => ([], s)
                  end = (m, s0) ∧ length s0 ≤ length s) as (m & s0 & -> & Hs0).
  { destruct s as [|c s']; [by eexists _, _|].
    destruct (c =? 45)%N; eexists _, _; split; try done; simpl; lia. }
  destruct (parse_int s0) as [[i s1]|] eqn:H1; [|done].
  destruct (parse_frac s1) as [[fr s2]|] eqn:H2; [|done].
  destruct (parse_exp s2) as [[e s3]|] eqn:H3; [|done].
  intros [= <- <-].
  apply parse_int_length in H1. apply parse_frac_length in H2.
  apply parse_exp_length in H3. lia.
Qed.

Lemma parse_scalar_length s v r :
  parse_scalar s = POk v r → length r < length s.
Proof.
  unfold parse_scalar. destruct s as [|c s]; [done|].
  destruct (c =? 34)%N.
  { destruct (parse_string_chars s) as [[x r']|] eqn:H; [|done].
    intros [= <- <-]. apply parse_string_chars_length in H. simpl. lia. }
  repeat match goal with
  | |- context [strip_prefix ?p ?x] =>
      destruct (c =? _)%N;
      [destruct (strip_prefix p x) as [r'|] eqn:H; [|done];
       intros [= <- <-]; apply strip_prefix_length in H;
       rewrite H; simpl; lia|]
  end.
  destruct (parse_number (c :: s)) as [[x r']|] eqn:H; [|done].
  intros [= <- <-]. by apply parse_number_length in H.
Qed.

Lemma parse_scalar_fuel s : parse_scalar s ≠ PFuel.
Proof.
  unfold parse_scalar. destruct s as [|c s]; [done|].
  repeat case_match; done.
Qed.

Lemma pbind_POk {A B} (x : presult A) (k : A → jsstring → presult B) b r :
  pbind x k = POk b r → ∃ a r0, x = POk a r0 ∧ k a r0 = POk b r.
Proof. destruct x; simpl; [eauto|done..]. Qed.

Lemma after_item_length {A} sep close s (more : jsstring → presult (list A))
    x xs r :
  (∀ s' xs' r', more s' = POk xs' r' → length r' < length s') →
  after_item sep close s more x = POk xs r → length r < length s.
Proof.
  intros Hmore. unfold after_item.
  destruct (skip_ws s) as [|d r0] eqn:Hs; [done|].
  apply skip_ws_cons in Hs.
  destruct (d =? sep)%N.
  - intros (ys & r1 & H%Hmore & [= _ <-])%pbind_POk. lia.
  - destruct (d =? close)%N; [|done]. intros [= _ <-]. lia.
Qed.

(** Every function that completes has consumed input. *)
Lemma parse_consumes f :
  (∀ s v r, parse_value f s = POk v r → length r < length s)
  ∧ (∀ s vs r, parse_elements f s = POk vs r → length r < length s)
  ∧ (∀ s ms r, parse_members f s = POk ms r → length r < length s).
Proof.
  induction f as [|f (IHv & IHe & IHm)]; [done|]. split_and!.
  - intros s v r. rewrite parse_value_S.
    destruct (skip_ws s) as [|c r0] eqn:Hs; [done|].
    apply skip_ws_cons in Hs.
    destruct (c =? 123)%N; [|destruct (c =? 91)%N].
    + destruct (skip_ws r0) as [|d r1] eqn:Hr; [done|].
      apply skip_ws_cons in Hr. destruct (d =? 125)%N.
      * intros [= _ <-]. lia.
      * intros (ms & r2 & H%IHm & [= _ <-])%pbind_POk. lia.
    + destruct (skip_ws r0) as [|d r1] eqn:Hr; [done|].
      apply skip_ws_cons in Hr. destruct (d =? 93)%N.
      * intros [= _ <-]. lia.
      * intros (ms & r2 & H%IHe & [= _ <-])%pbind_POk. lia.
    + intros H%parse_scalar_length. simpl in H. lia.
  - intros s vs r. rewrite parse_elements_S.
    intros (v & r0 & H%IHv & Ha)%pbind_POk.
    apply after_item_length in Ha; [lia|done].
  - intros s ms r. rewrite parse_members_S.
    destruct (skip_ws s) as [|c r0] eqn:Hs; [done|].
    apply skip_ws_cons in Hs.
    destruct (c =? 34)%N; [|done].
    destruct (parse_string_chars r0) as [[k r1]|] eqn:Hk; [|done].
    apply parse_string_chars_length in Hk.
    destruct (skip_ws r1) as [|d r2] eqn:Hr; [done|].
    apply skip_ws_cons in Hr.
    destruct (d =? 58)%N; [|done].
    intros (v & r3 & H%IHv & Ha)%pbind_POk.
    apply after_item_length in Ha; [lia|done].
Qed.

Lemma pbind_fuel {A B} (x : presult A) (k : A → jsstring → presult B) :
  x ≠ PFuel → (∀ a r, x = POk a r → k a r ≠ PFuel) → pbind x k ≠ PFuel.
Proof. destruct x; simpl; auto. Qed.

Lemma after_item_fuel {A} sep close s (more : jsstring → presult (list A)) x :
  (∀ d r, skip_ws s = d :: r → more r ≠ PFuel) →
  after_item sep close s more x ≠ PFuel.
Proof.
  intros Hmore. unfold after_item.
  destruct (skip_ws s) as [|d r0] eqn:Hs; [done|].
  destruct (d =? sep)%N.
  - apply pbind_fuel; [by eapply Hmore|done].
  - by destruct (d =? close)%N.
Qed.

(** With twice the length of the input as fuel, no function stops for
    lack of fuel. *)
Lemma parse_fuel f :
  (∀ s, 2 * length s < f → parse_value f s ≠ PFuel)
  ∧ (∀ s, 2 * length s + 1 < f → parse_elements f s ≠ PFuel)
  ∧ (∀ s, 2 * length s + 1 < f → parse_members f s ≠ PFuel).
Proof.
  induction f as [|f (IHv & IHe & IHm)]; [split_and!; intros; lia|].
  destruct (parse_consumes f) as (Cv & Ce & Cm).
  split_and!.
  - intros s Hf. rewrite parse_value_S.
    destruct (skip_ws s) as [|c r0] eqn:Hs; [done|].
    apply skip_ws_cons in Hs.
    destruct (c =? 123)%N; [|destruct (c =? 91)%N].
    + destruct (skip_ws r0) as [|d r1] eqn:Hr; [done|].
      destruct (d =? 125)%N; [done|].
      apply pbind_fuel; [apply IHm; lia|done].
    + destruct (skip_ws r0) as [|d r1] eqn:Hr; [done|].
      destruct (d =? 93)%N; [done|].
      apply pbind_fuel; [apply IHe; lia|done].
    + apply parse_scalar_fuel.
  - intros s Hf. rewrite parse_elements_S.
    apply pbind_fuel; [apply IHv; lia|].
    intros v r Hv%Cv. apply after_item_fuel.
    intros d r1 Hr%skip_ws_cons. apply IHe. lia.
  - intros s Hf. rewrite parse_members_S.
    destruct (skip_ws s) as [|c r0] eqn:Hs; [done|].
    apply skip_ws_cons in Hs.
    destruct (c =? 34)%N; [|done].
    destruct (parse_string_chars r0) as [[k r1]|] eqn:Hk; [|done].
    apply parse_string_chars_length in Hk.
    destruct (skip_ws r1) as [|d r2] eqn:Hr; [done|].
    apply skip_ws_cons in Hr.
    destruct (d =? 58)%N; [|done].
    apply pbind_fuel; [apply IHv; lia|].
    intros v r Hv%Cv. apply after_item_fuel.
    intros e r3 Hr3%skip_ws_cons. apply IHm. lia.
Qed.

(** So [JSON_parse s = None] is a syntax error of [s]. *)
Lemma parse_value_fuel s : parse_value (fuel_for s) s ≠ PFuel.
Proof. apply parse_fuel. unfold fuel_for. lia. Qed.

End Fuel.

(** ** A session *)

Section Session.

Example session_result :
  fst (session empty_page) = Normal tt
  ∧ tasks (snd (session empty_page))
    = task_list [mkTask (js "Buy milk") true (js "2024-05-01T10:00:00.000Z")]
  ∧ (session;; loadTasks) empty_page = session empty_page.
Proof. by vm_compute. Qed.

(** After [clearAll], a load finds the empty list. *)
Example clear_then_load :
  tasks (snd ((session;; deleteAllTasks;; loadTasks) empty_page)) = VArr []
  ∧ localStorage (snd ((session;; deleteAllTasks) empty_page)) !! js "tasks"
    = Some (js "[]").
Proof. by vm_compute. Qed.

(** A page whose stored blob is JSON but not an array does not start:
    [init] ends with the TypeError of [tasks.forEach]. *)
Example init_foreign_store : fst (init foreign_store) = Throw TypeError.
Proof. by vm_compute. Qed.

End Session.

(** * More of the script *)

(** ** Dragging *)

Section Dragging.

Implicit Types (st : state) (l : list val).

Lemma save_render_frame st :
  draggedIndex (snd ((saveTasks;; renderTasks) st)) = draggedIndex st
  ∧ todoInput_value (snd ((saveTasks;; renderTasks) st)) = todoInput_value st
  ∧ darkMode (snd ((saveTasks;; renderTasks) st)) = darkMode st
  ∧ quota (snd ((saveTasks;; renderTasks) st)) = quota st.
Proof. rewrite save_render_snd. cbv zeta. by case_decide. Qed.

Lemma move_back i j x l :
  l !! i = Some x → j < length l →
  let l1 := take j (delete i l) ++ x :: drop j (delete i l) in
  take i (delete j l1) ++ default x (l1 !! j) :: drop i (delete j l1) = l.
Proof.
  intros Hi Hj l1.
  assert (i < length l) as Hlt by (by eapply lookup_lt_Some).
  subst l1. rewrite move_lookup, move_delete by done. cbn [default from_option id].
  rewrite delete_take_drop.
  rewrite take_app_length' by (rewrite length_take; lia).
  rewrite drop_app_length' by (rewrite length_take; lia).
  by apply take_drop_middle.
Qed.

(** X1. When the drag source is a row of the list, a drop on any row
    rearranges the list: the tasks afterwards are the tasks before, each
    as often as before. *)
Theorem handleDrop_permutes st l dragged targetIndex :
  tasks st = VArr l → draggedIndex st = Some dragged → dragged < length l →
  ∃ l', tasks (snd (handleDrop targetIndex st)) = VArr l'
        ∧ l' ≡ₚ l ∧ length l' = length l.
Proof.
  intros Ht Hd Hlt.
  destruct (decide (dragged = targetIndex)) as [->|Hne].
  { exists l. by rewrite handleDrop_skip by auto. }
  destruct (lookup_lt_is_Some_2 l dragged Hlt) as [x Hx].
  exists (take targetIndex (delete dragged l)
            ++ x :: drop targetIndex (delete dragged l)).
  assert (take targetIndex (delete dragged l)
            ++ x :: drop targetIndex (delete dragged l) ≡ₚ l) as Hp.
  { rewrite <- Permutation_middle, take_drop.
    symmetry. by apply delete_Permutation. }
  split_and!; [|done|by rewrite Hp].
  rewrite (handleDrop_run st l dragged targetIndex) by done.
  by rewrite save_render_tasks, Hx.
Qed.

Lemma handleDrop_permutes_witness :
  ∃ l', tasks (snd (handleDrop 2
                  (mkState (VArr three_tasks) (Some 0) [] false ∅ 100)))
        = VArr l'
        ∧ l' ≡ₚ three_tasks ∧ length l' = length three_tasks.
Proof.
  apply (handleDrop_permutes
           (mkState (VArr three_tasks) (Some 0) [] false ∅ 100)
           three_tasks 0 2); [reflexivity | reflexivity | simpl; lia].
Defined.

(** X2. Dragging row [i] onto row [j] and then row [j] onto row [i]
    gives the list back, whatever the storage does. *)
Theorem drag_there_and_back st l i j :
  tasks st = VArr l → i < length l → j < length l →
  tasks (run [DragStart i; Drop j; DragEnd; DragStart j; Drop i; DragEnd] st)
  = VArr l.
Proof.
  intros Ht Hi Hj.
  destruct (decide (i = j)) as [->|Hne].
  { cbn [run fold_left dispatch]. unfold handleDragStart, handleDragEnd, modify.
    cbn [snd]. rewrite !handleDrop_skip by (right; reflexivity). done. }
  destruct (lookup_lt_is_Some_2 l i Hi) as [x Hx].
  cbn [run fold_left dispatch]. unfold handleDragStart, handleDragEnd, modify.
  cbn [snd].
  set (st1 := set_draggedIndex (Some i) st).
  rewrite (handleDrop_run st1 l i j) by done. rewrite Hx.
  cbn [default from_option id].
  set (l1 := take j (delete i l) ++ x :: drop j (delete i l)).
  set (st2 := snd ((saveTasks;; renderTasks) (set_tasks (VArr l1) st1))).
  assert (tasks st2 = VArr l1) as H2 by (subst st2; by rewrite save_render_tasks).
  set (st3 := set_draggedIndex (Some j) (set_draggedIndex None st2)).
  rewrite (handleDrop_run st3 l1 j i) by done.
  cbn [tasks set_draggedIndex]. rewrite save_render_tasks.
  cbn [tasks set_tasks]. f_equal. pose proof (move_back i j x l Hx Hj) as Hb. cbv zeta in Hb.
  fold l1 in Hb.
  assert (l1 !! j = Some x) as Hl1 by (by apply move_lookup).
  rewrite Hl1 in *. done.
Qed.

Lemma drag_there_and_back_witness :
  tasks (run [DragStart 0; Drop 2; DragEnd; DragStart 2; Drop 0; DragEnd]
           (mkState (VArr three_tasks) None [] false ∅ 100))
  = VArr three_tasks.
Proof.
  apply (drag_there_and_back
           (mkState (VArr three_tasks) None [] false ∅ 100) three_tasks 0 2);
    [reflexivity | simpl; lia | simpl; lia].
Defined.

Lemma renders_undefined l j :
  forallb renders (take j l ++ VUndef :: drop j l) = false.
Proof.
  rewrite forallb_app. simpl. by rewrite andb_false_r.
Qed.

(** X3. When the recorded drag source is beyond the list (a row of a
    longer, earlier list), a drop on another row takes nothing out and
    puts [undefined] in at the target: the list is one longer, and the
    listener does not complete; when the storage takes the list, it ends
    with the TypeError of [renderTasks], after the list with [null] in it
    was stored. *)
Theorem handleDrop_stale_source st l dragged targetIndex :
  tasks st = VArr l → draggedIndex st = Some dragged →
  length l ≤ dragged → dragged ≠ targetIndex →
  let l' := take targetIndex l ++ VUndef :: drop targetIndex l in
  tasks (snd (handleDrop targetIndex st)) = VArr l'
  ∧ length l' = S (length l)
  ∧ fst (handleDrop targetIndex st) ≠ Normal tt
  ∧ (¬ persist_fails (set_tasks (VArr l') st) →
       fst (handleDrop targetIndex st) = Throw TypeError
       ∧ localStorage (snd (handleDrop targetIndex st)) !! js "tasks"
         = Some (JSON_stringify (VArr l'))).
Proof.
  intros Ht Hd Hge Hne l'.
  assert (handleDrop targetIndex st
          = (saveTasks;; renderTasks) (set_tasks (VArr l') st)) as Hrun.
  { rewrite (handleDrop_run st l dragged targetIndex) by done.
    rewrite lookup_ge_None_2 by done.
    assert (delete dragged l = l) as ->; [|done].
    rewrite delete_take_drop, take_ge, drop_ge by lia. apply app_nil_r. }
  assert (∀ s, tasks s = VArr l' → renderTasks s = (Throw TypeError, s)) as Hr.
  { intros s Hs. unfold renderTasks. stmt. rewrite Hs. subst l'.
    by rewrite renders_undefined. }
  split_and!.
  - by rewrite Hrun, save_render_tasks.
  - subst l'. rewrite length_app. cbn [length].
    rewrite length_take, length_drop. lia.
  - rewrite Hrun. unfold mbind, M_bind.
    pose proof (saveTasks_tasks (set_tasks (VArr l') st)) as Hs.
    destruct (saveTasks _) as [[[]|e] s1]; [|done].
    cbn [snd] in Hs. by rewrite (Hr s1 Hs).
  - intros Hnf. rewrite Hrun. unfold mbind, M_bind.
    destruct (saveTasks (set_tasks (VArr l') st)) as [[[]|e] s1] eqn:Hs.
    + apply saveTasks_Normal in Hs as [Hs1 Hs2]. by rewrite (Hr s1 Hs1).
    + destruct Hnf. exists e. by rewrite Hs.
Qed.

Lemma handleDrop_stale_source_witness :
  tasks (snd (handleDrop 0 stale_drag)) = VArr [VUndef; VStr (js "A")].
Proof.
  refine (proj1 (handleDrop_stale_source stale_drag [VStr (js "A")] 5 0
                   _ _ _ _)); [reflexivity | reflexivity | simpl; lia | lia].
Defined.

(** X4. A drag that ends without a drop changes neither the list nor
    the storage, and leaves no drag source: a drop that comes later does
    nothing. *)
Theorem drag_cancelled st i j :
  run [DragStart i; DragOver; DragEnd; Drop j] st = set_draggedIndex None st
  ∧ dispatch (Drop j) (run [DragStart i; DragOver; DragEnd] st)
    = (Normal tt, set_draggedIndex None st).
Proof.
  cbn [run fold_left dispatch].
  unfold handleDragStart, handleDragOver, handleDragEnd, modify, mret, M_ret.
  cbn [snd]. rewrite handleDrop_skip by (left; reflexivity). done.
Qed.

End Dragging.

(** ** What [trim] keeps *)

Section TrimShape.

Implicit Types (s : jsstring).

Lemma trim_start_split s :
  ∃ pre, s = pre ++ trim_start s ∧ blank pre = true.
Proof.
  induction s as [|c s (pre & Hs & Hpre)]; [by exists []|]. simpl.
  destruct (is_white_space c) eqn:Hc.
  - exists (c :: pre). simpl. rewrite Hc, Hpre. by rewrite Hs at 1.
  - by exists [].
Qed.

Lemma trim_end_split s :
  ∃ post, s = trim_end s ++ post ∧ blank post = true.
Proof.
  induction s as [|c s (post & Hs & Hpost)]; [by exists []|]. simpl.
  destruct (trim_end s) as [|d r] eqn:He.
  - simpl in Hs. subst post. destruct (is_white_space c) eqn:Hc.
    + exists (c :: s). simpl. by rewrite Hc, Hpost.
    + by exists s.
  - exists post. split; [|done]. simpl. by rewrite Hs at 1.
Qed.

(** The input is the trimmed text between two runs of white space. *)
Lemma trim_split s :
  ∃ pre post, s = pre ++ trim s ++ post
              ∧ blank pre = true ∧ blank post = true.
Proof.
  destruct (trim_start_split s) as (pre & Hs & Hpre).
  destruct (trim_end_split (trim_start s)) as (post & Ht & Hpost).
  exists pre, post. unfold trim. by rewrite <- Ht.
Qed.

Lemma trim_start_head s c r :
  trim_start s = c :: r → is_white_space c = false.
Proof.
  induction s as [|d s IH]; simpl; [done|].
  destruct (is_white_space d) eqn:Hd; [done|]. by intros [= <- _].
Qed.

Lemma trim_end_head c s :
  is_white_space c = false → ∃ r, trim_end (c :: s) = c :: r.
Proof.
  intros Hc. simpl. destruct (trim_end s); rewrite ?Hc; eauto.
Qed.

Lemma trim_end_last s c :
  last (trim_end s) = Some c → is_white_space c = false.
Proof.
  induction s as [|d s IH]; simpl; [done|].
  destruct (trim_end s) as [|e r] eqn:He.
  - destruct (is_white_space d) eqn:Hd.
    + by intros [=].
    + rewrite last_singleton. by intros [= <-].
  - rewrite last_cons_cons. apply IH.
Qed.

Lemma trim_end_idem s : trim_end (trim_end s) = trim_end s.
Proof.
  induction s as [|c s IH]; simpl; [done|].
  destruct (trim_end s) as [|d r] eqn:He.
  - destruct (is_white_space c) eqn:Hc; simpl; by rewrite ?Hc.
  - remember (d :: r) as u. simpl. rewrite IH. by subst u.
Qed.

Lemma trim_head s c r : trim s = c :: r → is_white_space c = false.
Proof.
  unfold trim. destruct (trim_start s) as [|d u] eqn:Hs; [done|].
  pose proof (trim_start_head _ _ _ Hs) as Hd.
  destruct (trim_end_head d u Hd) as [r' ->]. by intros [= <- _].
Qed.

Lemma trim_last s c : last (trim s) = Some c → is_white_space c = false.
Proof. apply trim_end_last. Qed.

Lemma trim_idem s : trim (trim s) = trim s.
Proof.
  unfold trim at 1. destruct (trim s) as [|c r] eqn:Ht; [done|].
  pose proof (trim_head _ _ _ Ht) as Hc. simpl trim_start. rewrite Hc.
  rewrite <- Ht. apply trim_end_idem.
Qed.

End TrimShape.

(** ** Adding, editing, clearing *)

Section MoreHandlers.

Implicit Types (st : state).

(** X5. Adding a task and then removing the row it got (the last one)
    gives the list back; when the input was blank, both do nothing to
    the list. *)
Theorem add_then_remove st (l : list val) now :
  tasks st = VArr l →
  tasks (run [AddClick now; RemoveClick (length l)] st) = VArr l.
Proof.
  intros Ht. cbn [run fold_left dispatch].
  destruct (decide (trim (todoInput_value st) = [])) as [He|Hne].
  - rewrite addTask_reject by done. cbn [snd].
    rewrite (removeBtn_click_run st l) by done.
    rewrite save_render_tasks. cbn [tasks set_tasks]. f_equal.
    rewrite delete_take_drop, take_ge, drop_ge by lia. apply app_nil_r.
  - pose proof (addTask_tasks st l now Ht Hne) as Ha.
    rewrite (removeBtn_click_run _ _ _ Ha).
    rewrite save_render_tasks. cbn [tasks set_tasks]. f_equal.
    rewrite delete_middle. apply app_nil_r.
Qed.

Lemma add_then_remove_witness :
  tasks (run [AddClick (js "2024-05-01T10:00:00.000Z"); RemoveClick 3]
           (mkState (VArr three_tasks) None (js " D ") false ∅ 200))
  = VArr three_tasks.
Proof.
  apply (add_then_remove
           (mkState (VArr three_tasks) None (js " D ") false ∅ 200)
           three_tasks). reflexivity.
Defined.

(** X6. The text that [addTask] stores is the input without the white
    space around it: the input is that text between two runs of white
    space, so what is inside the text is kept as typed, and the text
    neither starts nor ends with white space. *)
Theorem addTask_keeps_inner_text st (l : list val) now :
  tasks st = VArr l → trim (todoInput_value st) ≠ [] →
  ∃ t pre post,
    tasks (snd (addTask now st)) = VArr (l ++ [task_val t])
    ∧ todoInput_value st = pre ++ text t ++ post
    ∧ blank pre = true ∧ blank post = true
    ∧ (∀ c, head (text t) = Some c → is_white_space c = false)
    ∧ (∀ c, last (text t) = Some c → is_white_space c = false)
    ∧ trim (text t) = text t.
Proof.
  intros Ht Hne.
  destruct (trim_split (todoInput_value st)) as (pre & post & Hs & Hpre & Hpost).
  exists (mkTask (trim (todoInput_value st)) false now), pre, post.
  cbn [text]. split_and!; try done.
  - by apply addTask_tasks.
  - intros c Hc. destruct (trim (todoInput_value st)) as [|d r] eqn:Hd; [done|].
    injection Hc as ->. by eapply trim_head.
  - apply trim_last.
  - apply trim_idem.
Qed.

Lemma addTask_keeps_inner_text_witness :
  ∃ t pre post,
    tasks (snd (addTask (js "2024-05-01T10:00:00.000Z")
                  (mkState (VArr []) None (js "  Buy  milk ") false ∅ 200)))
    = VArr ([] ++ [task_val t])
    ∧ js "  Buy  milk " = pre ++ text t ++ post
    ∧ blank pre = true ∧ blank post = true
    ∧ (∀ c, head (text t) = Some c → is_white_space c = false)
    ∧ (∀ c, last (text t) = Some c → is_white_space c = false)
    ∧ trim (text t) = text t.
Proof.
  apply (addTask_keeps_inner_text
           (mkState (VArr []) None (js "  Buy  milk ") false ∅ 200) []);
    [reflexivity | vm_compute; discriminate].
Defined.

Lemma addTask_not_array st now :
  (∀ l, tasks st ≠ VArr l) → trim (todoInput_value st) ≠ [] →
  addTask now st = (Throw TypeError, st).
Proof.
  intros Hna Hne. unfold addTask, tasks_push.
  unfold get_state, throw, mbind, M_bind.
  destruct (trim (todoInput_value st)) as [|c s]; [done|].
  cbn [truthy_string negb].
  destruct (tasks st) as [| | | | |l|]; try done. by destruct (Hna l).
Qed.

Lemma save_render_clear_input st :
  let r := (saveTasks;; renderTasks;; modify (set_todoInput_value [])) st in
  (fst r ≠ Normal tt → todoInput_value (snd r) = todoInput_value st)
  ∧ (fst r = Normal tt → todoInput_value (snd r) = []).
Proof.
  cbv zeta. unfold mbind, M_bind. rewrite saveTasks_run. cbv zeta.
  case_decide; [|done].
  match goal with |- context [renderTasks ?s] =>
    pose proof (renderTasks_state s) as Hr;
    destruct (renderTasks s) as [[[]|e] st2] end;
    cbn [fst snd] in *; subst; by split.
Qed.

(** X7. [addTask] empties the input field only when it has added the
    task, stored the list and drawn it: after a rejected (blank) input
    and after an exception the input field holds what it held. *)
Theorem addTask_input st now :
  (trim (todoInput_value st) = [] → addTask now st = (Normal tt, st))
  ∧ (fst (addTask now st) ≠ Normal tt →
       todoInput_value (snd (addTask now st)) = todoInput_value st)
  ∧ (fst (addTask now st) = Normal tt → trim (todoInput_value st) ≠ [] →
       todoInput_value (snd (addTask now st)) = []).
Proof.
  split; [apply addTask_reject|].
  destruct (decide (trim (todoInput_value st) = [])) as [He|Hne].
  { rewrite addTask_reject by done. by split. }
  destruct (tasks st) as [| | | | |l|] eqn:Ht;
    try (rewrite addTask_not_array by (done || by rewrite Ht); by split).
  rewrite (addTask_run st l now) by done.
  match goal with |- context [_ (set_tasks ?v st)] =>
    destruct (save_render_clear_input (set_tasks v st)) as [H1 H2] end.
  cbv zeta in H1, H2. split; [exact H1 | intros Hn _; by apply H2].
Qed.

(** X8. Committing an edit without having changed the text (a text that
    is trimmed and not empty, as [addTask] and a committed edit leave
    it) leaves the list as it is. *)
Theorem edit_same_text st (l : list Task) index t :
  tasks st = task_list l → l !! index = Some t →
  trim (text t) = text t → text t ≠ [] →
  tasks (snd (editBtn_click index true (text t) st)) = tasks st.
Proof.
  intros Ht Hi Htrim Hne.
  rewrite (editBtn_click_run st l index t) by (try done; by rewrite Htrim).
  rewrite save_render_tasks, Ht, Htrim. cbn [tasks set_tasks]. f_equal.
  apply list_insert_id. rewrite Hi. by destruct t.
Qed.

Lemma edit_same_text_witness :
  tasks (snd (editBtn_click 0 true (js "Old")
                (mkState (task_list one_task) None [] false ∅ 200)))
  = task_list one_task.
Proof.
  apply (edit_same_text (mkState (task_list one_task) None [] false ∅ 200)
           one_task 0 (mkTask (js "Old") true (js "2024-05-01T10:00:00.000Z")));
    [reflexivity | reflexivity | reflexivity | discriminate].
Defined.

Lemma renderTasks_empty st :
  tasks st = VArr [] → renderTasks st = (Normal tt, st).
Proof. intros H. unfold renderTasks. stmt. by rewrite H. Qed.

(** X9. [deleteAllTasks] always leaves the empty list in memory, and
    the only exception it can end with is the one of a full storage.
    When it completes, the stored blob is the encoding of the empty list
    and a load gives the empty list; when it does not, the storage is
    untouched, so a load gives back what was stored before. *)
Theorem deleteAllTasks_clears st :
  tasks (snd (deleteAllTasks st)) = VArr []
  ∧ (fst (deleteAllTasks st) = Normal tt
     ∨ fst (deleteAllTasks st) = Throw QuotaExceededError)
  ∧ (fst (deleteAllTasks st) = Normal tt →
       localStorage (snd (deleteAllTasks st)) !! js "tasks" = Some (js "[]")
       ∧ tasks (snd (loadTasks (snd (deleteAllTasks st)))) = VArr [])
  ∧ (fst (deleteAllTasks st) = Throw QuotaExceededError →
       localStorage (snd (deleteAllTasks st)) = localStorage st
       ∧ tasks (snd (loadTasks (snd (deleteAllTasks st))))
         = tasks (snd (loadTasks st))).
Proof.
  assert (deleteAllTasks st
          = (saveTasks;; renderTasks) (set_tasks (VArr []) st)) as Hrun
    by reflexivity.
  rewrite Hrun. unfold mbind, M_bind. rewrite saveTasks_run. cbv zeta.
  case_decide as Hq.
  - rewrite renderTasks_empty by done. cbn [fst snd].
    split_and!; [done | by left | | done].
    intros _. rewrite loadTasks_run.
    cbn [tasks localStorage set_localStorage set_tasks snd].
    by rewrite lookup_insert_eq.
  - cbn [fst snd]. split_and!; [done | by right | done |].
    intros _. split; [done|]. by rewrite !loadTasks_run.
Qed.

End MoreHandlers.

(** ** What a listener leaves alone *)

Section Frames.

Context (R : state → state → Prop) `{!PreOrder R}.

Lemma keeps_ret {A} (a : A) : keeps R (mret a).
Proof. intros st. reflexivity. Qed.

Lemma keeps_throw {A} e : keeps R (throw (A:=A) e).
Proof. intros st. reflexivity. Qed.

Lemma keeps_get : keeps R get_state.
Proof. intros st. reflexivity. Qed.

Lemma keeps_getItem k : keeps R (getItem k).
Proof. intros st. reflexivity. Qed.

Lemma keeps_bind {A B} (m : M A) (k : A → M B) :
  keeps R m → (∀ a, keeps R (k a)) → keeps R (m ≫= k).
Proof.
  intros Hm Hk st. unfold mbind, M_bind. specialize (Hm st).
  destruct (m st) as [[a|e] st1]; [|done].
  etrans; [exact Hm|apply Hk].
Qed.

Lemma keeps_modify f : (∀ st, R st (f st)) → keeps R (modify f).
Proof. intros Hf st. apply Hf. Qed.

Lemma keeps_setItem k v :
  (∀ st, R st (set_localStorage (<[k:=v]> (localStorage st)) st)) →
  keeps R (setItem k v).
Proof.
  intros Hs st. unfold setItem. cbv zeta. case_decide; [apply Hs|reflexivity].
Qed.

Lemma keeps_try_catch {A} (body : M A) handler :
  keeps R body → (∀ e, keeps R (handler e)) → keeps R (try_catch body handler).
Proof.
  intros Hb Hh st. unfold try_catch. specialize (Hb st).
  destruct (body st) as [[a|e] st1]; [done|].
  etrans; [exact Hb|apply Hh].
Qed.

End Frames.

Ltac keeps_side :=
  first
    [ split_and!; try done; cbn [localStorage set_localStorage];
      by rewrite ?lookup_insert_ne by done
    | by left | by right ].

Ltac keeps_step :=
  first
    [ apply keeps_ret; tc_solve | apply keeps_throw; tc_solve
    | apply keeps_get; tc_solve | apply keeps_getItem; tc_solve
    | apply keeps_bind; [tc_solve| |intros ?]
    | apply keeps_try_catch; [tc_solve| |intros ?]
    | apply keeps_modify; intros ?; keeps_side
    | apply keeps_setItem; [tc_solve|]; intros ?; keeps_side
    | match goal with
      | |- keeps _ (match ?x with _ => _ end) => destruct x
      end ].

Ltac unfold_listeners :=
  unfold dispatch, type_input, todoInput_keyup, darkModeToggle_click,
    addTask, deleteAllTasks, checkbox_change, editBtn_click, removeBtn_click,
    handleDragStart, handleDragOver, handleDrop, handleDragEnd,
    toggleDarkMode, loadTasks, saveTasks, renderTasks, JSON_parse_stmt,
    tasks_splice, tasks_push, task_assign.

Section DarkMode.

Implicit Types (st : state).

#[local] Instance same_dark_preorder : PreOrder same_dark.
Proof.
  split; [by intros st|].
  intros a b c [H1 H2] [H3 H4]. split; congruence.
Qed.

#[local] Instance same_tasks_preorder : PreOrder same_tasks.
Proof.
  split; [by intros st|].
  intros a b c (?&?&?&?) (?&?&?&?). split_and!; congruence.
Qed.

Lemma keys_differ : js "tasks" ≠ js "darkMode".
Proof. done. Qed.

Lemma dispatch_same_dark ev :
  ev ≠ DarkModeClick → keeps same_dark (dispatch ev).
Proof.
  intros Hev. destruct ev; try done; unfold_listeners;
    repeat keeps_step.
Qed.

Lemma toggleDarkMode_same_tasks force : keeps same_tasks (toggleDarkMode force).
Proof.
  unfold_listeners.
  repeat keeps_step.
Qed.

(** X10. The dark mode and the list do not touch each other: no listener
    but the click on the dark-mode button changes the dark mode of the
    page or the stored preference, and [toggleDarkMode] changes neither
    the list, the drag source and the input field nor the stored list. *)
Theorem dark_mode_apart :
  (∀ ev st, ev ≠ DarkModeClick → same_dark st (snd (dispatch ev st)))
  ∧ (∀ force st, same_tasks st (snd (toggleDarkMode force st))).
Proof.
  split.
  - intros ev st Hev. by apply dispatch_same_dark.
  - intros force st. apply toggleDarkMode_same_tasks.
Qed.

Lemma toggleDarkMode_run force st :
  toggleDarkMode force st =
    let enable := match force with
                  | Some b => b
                  | None => negb (darkMode st)
                  end in
    let m := <[js "darkMode" := if enable then js "true" else js "false"]>
               (localStorage st) in
    if decide (storage_used m ≤ quota st)
    then (Normal tt, set_localStorage m (set_darkMode enable st))
    else (Throw QuotaExceededError, set_darkMode enable st).
Proof. reflexivity. Qed.

Lemma toggleDarkMode_darkMode force st :
  darkMode (snd (toggleDarkMode force st))
  = match force with
    | Some b => b
    | None => negb (darkMode st)
    end.
Proof. rewrite toggleDarkMode_run. cbv zeta. by case_decide. Qed.

(** X11. [toggleDarkMode()] flips the dark mode, so twice gives it back,
    and [toggleDarkMode(b)] sets it to [b].  When it completes, the
    stored preference is the literal of the dark mode it leaves; when
    the storage is full, the dark mode has changed and the stored
    preference has not. *)
Theorem toggleDarkMode_flips st :
  darkMode (snd (toggleDarkMode None st)) = negb (darkMode st)
  ∧ darkMode (snd (toggleDarkMode None (snd (toggleDarkMode None st))))
    = darkMode st
  ∧ (∀ b, darkMode (snd (toggleDarkMode (Some b) st)) = b)
  ∧ (∀ force st', toggleDarkMode force st = (Normal tt, st') →
       localStorage st' !! js "darkMode"
       = Some (if darkMode st' then js "true" else js "false"))
  ∧ (∀ force, fst (toggleDarkMode force st) ≠ Normal tt →
       fst (toggleDarkMode force st) = Throw QuotaExceededError
       ∧ localStorage (snd (toggleDarkMode force st)) = localStorage st).
Proof.
  split_and!.
  - apply toggleDarkMode_darkMode.
  - rewrite !toggleDarkMode_darkMode. apply negb_involutive.
  - intros b. apply toggleDarkMode_darkMode.
  - intros force st'. rewrite toggleDarkMode_run. cbv zeta.
    case_decide; [|done].
    intros [= <-]. cbn [localStorage darkMode set_localStorage set_darkMode].
    by rewrite lookup_insert_eq.
  - intros force. rewrite toggleDarkMode_run. cbv zeta. by case_decide.
Qed.

End DarkMode.

(** ** Starting the page *)

Section Init.

Implicit Types (st : state).

#[local] Existing Instance same_tasks_preorder.

Lemma init_run st :
  init st =
    ((if decide (localStorage st !! js "darkMode" = Some (js "true"))
      then toggleDarkMode (Some true) else mret tt);;
     renderTasks) (snd (loadTasks st)).
Proof.
  unfold init. unfold mbind at 1, M_bind at 1. rewrite loadTasks_run.
  cbn [snd]. unfold mbind at 1, M_bind at 1, getItem.
  cbn [localStorage set_tasks]. reflexivity.
Qed.

Lemma init_same_tasks st : same_tasks (snd (loadTasks st)) (snd (init st)).
Proof.
  rewrite init_run. generalize (snd (loadTasks st)). intros st1.
  assert (keeps same_tasks
            ((if decide (localStorage st !! js "darkMode" = Some (js "true"))
              then toggleDarkMode (Some true) else mret tt);;
             renderTasks)) as Hk; [|apply Hk].
  apply keeps_bind; [tc_solve| |intros _].
  - case_decide; [apply toggleDarkMode_same_tasks|apply keeps_ret; tc_solve].
  - unfold renderTasks. repeat keeps_step.
Qed.

Lemma renderTasks_run st :
  renderTasks st =
    match tasks st with
    | VArr l => if forallb renders l then (Normal tt, st)
                else (Throw TypeError, st)
    | _ => (Throw TypeError, st)
    end.
Proof.
  unfold renderTasks. stmt. destruct (tasks st); try done.
  by destruct (forallb renders _).
Qed.

(** The list can be drawn. *)
Lemma renderTasks_Normal_iff st :
  fst (renderTasks st) = Normal tt
  ↔ ∃ l, tasks st = VArr l ∧ forallb renders l = true.
Proof.
  rewrite renderTasks_run. destruct (tasks st) as [| | | | |l|];
    try (split; [done|by intros (? & ? & ?)]).
  destruct (forallb renders l) eqn:Hr; split; try done; eauto.
  intros (l' & [= <-] & Hl). congruence.
Qed.

Lemma renderTasks_outcome st :
  fst (renderTasks st) = Normal tt ∨ fst (renderTasks st) = Throw TypeError.
Proof.
  rewrite renderTasks_run. destruct (tasks st); auto.
  destruct (forallb renders _); auto.
Qed.

(** X12. [init] takes the list from the storage as [loadTasks] decodes
    it and never writes the stored list; it turns the dark mode on when
    the stored preference is the literal [true] and leaves it as it is
    otherwise.  A load after [init] gives the list that is in memory. *)
Theorem init_adopts_storage st :
  tasks (snd (init st))
  = match localStorage st !! js "tasks" with
    | Some s => default (VArr []) (JSON_parse s)
    | None => VArr []
    end
  ∧ localStorage (snd (init st)) !! js "tasks" = localStorage st !! js "tasks"
  ∧ darkMode (snd (init st)) = dark_stored st || darkMode st
  ∧ restorable (snd (init st)).
Proof.
  destruct (init_same_tasks st) as (Ht & _ & _ & Hs).
  rewrite loadTasks_run in Ht, Hs. cbn [snd tasks localStorage set_tasks] in *.
  split_and!; [done | done | |].
  - rewrite init_run. unfold mbind, M_bind, dark_stored.
    case_decide as Hd.
    + rewrite bool_decide_eq_true_2 by done.
      pose proof (toggleDarkMode_darkMode (Some true) (snd (loadTasks st))) as H.
      destruct (toggleDarkMode _ _) as [[[]|e] s1]; [|done].
      cbn [snd] in H. by rewrite (surjective_pairing (renderTasks s1)),
        renderTasks_state.
    + rewrite bool_decide_eq_false_2 by done. cbn [mret M_ret].
      rewrite (surjective_pairing (renderTasks _)), renderTasks_state.
      by rewrite loadTasks_run.
  - unfold restorable. rewrite loadTasks_run.
    cbn [snd tasks set_tasks]. by rewrite Hs, Ht.
Qed.

(** X13. When what is stored fits the quota, [init] completes exactly
    when the stored list decodes to an array whose rows can be drawn,
    and ends with a TypeError otherwise.  So the page starts on an empty
    and on an unreadable storage, and does not start on stored JSON that
    is not an array. *)
Theorem init_completes_iff st :
  within_quota st →
  (fst (init st) = Normal tt
   ↔ ∃ l, tasks (snd (loadTasks st)) = VArr l ∧ forallb renders l = true)
  ∧ (fst (init st) ≠ Normal tt → fst (init st) = Throw TypeError)
  ∧ (localStorage st !! js "tasks" = None → fst (init st) = Normal tt)
  ∧ (∀ s, localStorage st !! js "tasks" = Some s → JSON_parse s = None →
       fst (init st) = Normal tt)
  ∧ (∀ s v, localStorage st !! js "tasks" = Some s → JSON_parse s = Some v →
       (∀ l, v ≠ VArr l) → fst (init st) = Throw TypeError).
Proof.
  intros Hq.
  assert (∃ s1, tasks s1 = tasks (snd (loadTasks st))
                ∧ fst (init st) = fst (renderTasks s1)) as (s1 & Hs1 & Hi).
  { rewrite init_run. unfold mbind, M_bind. case_decide as Hd.
    - rewrite toggleDarkMode_run. cbv zeta. rewrite loadTasks_run.
      cbn [snd localStorage quota set_tasks].
      rewrite insert_id by done. rewrite decide_True by done.
      eexists. split; [|done]. done.
    - exists (snd (loadTasks st)). done. }
  assert (fst (init st) = Normal tt
          ↔ ∃ l, tasks (snd (loadTasks st)) = VArr l
                 ∧ forallb renders l = true) as Hiff.
  { rewrite Hi, renderTasks_Normal_iff. by rewrite Hs1. }
  split_and!.
  - done.
  - rewrite Hi. by destruct (renderTasks_outcome s1) as [->| ->].
  - intros Hn. apply Hiff. exists []. by rewrite loadTasks_run, Hn.
  - intros s Hs Hp. apply Hiff. exists []. by rewrite loadTasks_run, Hs, Hp.
  - intros s v Hs Hp Hv.
    destruct (renderTasks_outcome s1) as [Hr|Hr]; rewrite Hi; [|done].
    apply renderTasks_Normal_iff in Hr as (l & Hl & _).
    rewrite Hs1, loadTasks_run, Hs, Hp in Hl. by destruct (Hv l).
Qed.

Lemma init_completes_iff_witness :
  fst (init foreign_store) = Throw TypeError.
Proof.
  refine (proj2 (proj2 (proj2 (proj2 (init_completes_iff foreign_store _))))
            (js "{}") (VObj []) _ _ _); try reflexivity.
  - unfold within_quota. vm_compute. lia.
  - by intros l.
Defined.

End Init.

(** ** What a listener can end with *)

Section Outcomes.

Implicit Types (st : state) (l : list val).

Lemma forallb_renders_lookup l i task :
  l !! i = Some task → renders task = false → forallb renders l = false.
Proof.
  intros Hi Hr. apply not_true_is_false. intros Hall.
  rewrite forallb_forall in Hall.
  assert (renders task = true); [|congruence].
  apply Hall. apply list_elem_of_In. by eapply list_elem_of_lookup_2.
Qed.

Lemma set_prop_None task k v : set_prop task k v = None → renders task = false.
Proof. by destruct task. Qed.

Lemma renderTasks_not_array st :
  (∀ l, tasks st ≠ VArr l) → renderTasks st = (Throw TypeError, st).
Proof.
  intros Hna. rewrite renderTasks_run.
  destruct (tasks st) as [| | | | |l|]; try done. by destruct (Hna l).
Qed.

(** [task.k = v] on row [index]: a TypeError that changes nothing when
    the task is [null] or [undefined], and otherwise a state that
    differs in the list only. *)
Lemma task_assign_cases index k v st :
  (task_assign index k v st = (Throw TypeError, st)
   ∧ fst (renderTasks st) = Throw TypeError)
  ∨ ∃ w, task_assign index k v st = (Normal tt, set_tasks w st).
Proof.
  unfold task_assign, get_state, modify, throw, mbind, mret, M_bind, M_ret.
  destruct (tasks st) as [| | | | |l|] eqn:Ht;
    try (right; exists (tasks st); by rewrite set_tasks_same).
  destruct (l !! index) as [task|] eqn:Hi;
    [|right; exists (tasks st); by rewrite set_tasks_same].
  destruct (set_prop task k v) as [task'|] eqn:Hs; [right; eauto|].
  left. split; [done|]. rewrite renderTasks_run, Ht.
  by rewrite (forallb_renders_lookup l index task Hi (set_prop_None _ _ _ Hs)).
Qed.

Lemma tasks_splice_array start deleteCount items st l :
  tasks st = VArr l →
  tasks_splice start deleteCount items st
  = (Normal (fst (splice start deleteCount items l)),
     set_tasks (VArr (snd (splice start deleteCount items l))) st).
Proof.
  intros Ht.
  unfold tasks_splice, get_state, modify, throw, mbind, mret, M_bind, M_ret.
  by rewrite Ht.
Qed.

Lemma tasks_splice_not_array start deleteCount items st :
  (∀ l, tasks st ≠ VArr l) →
  tasks_splice start deleteCount items st = (Throw TypeError, st).
Proof.
  intros Hna.
  unfold tasks_splice, get_state, modify, throw, mbind, mret, M_bind, M_ret.
  destruct (tasks st) as [| | | | |l|]; try done. by destruct (Hna l).
Qed.

Lemma addTask_manner now st : manner st (addTask now st).
Proof.
  destruct (decide (trim (todoInput_value st) = [])) as [He|Hne].
  { rewrite addTask_reject by done. apply leaves_list; auto. }
  destruct (tasks st) as [| | | | |l|] eqn:Ht;
    try (apply cannot_draw;
         [apply addTask_not_array; [by rewrite Ht|done]
         |by rewrite renderTasks_run, Ht]).
  eapply persists_and_clears. by apply addTask_run.
Qed.

Lemma dispatch_manner ev st : manner st (dispatch ev st).
Proof.
  destruct ev as
    [s|now|key now| | |index checked|index isEditing textContent|index
    |index| |index|]; cbn [dispatch].
  - apply leaves_list; auto.
  - apply addTask_manner.
  - unfold todoInput_keyup. case_decide; [apply addTask_manner|].
    apply leaves_list; auto.
  - by apply (persists _ _ (VArr [])).
  - unfold darkModeToggle_click. rewrite toggleDarkMode_run. cbv zeta.
    case_decide; apply leaves_list; cbn [fst snd]; auto.
    cbn [localStorage set_localStorage set_darkMode].
    by rewrite lookup_insert_ne.
  - unfold checkbox_change. unfold mbind at 1, M_bind at 1.
    destruct (task_assign_cases index (js "completed") (VBool checked) st)
      as [[-> Hr]|[w ->]]; [by apply cannot_draw | by apply (persists _ _ w)].
  - unfold editBtn_click. destruct isEditing; cbn [negb];
      [|apply leaves_list; auto].
    destruct (trim textContent) as [|c s] eqn:Htrim; cbn [truthy_string].
    { by apply only_draws. }
    unfold mbind at 1 2, M_bind at 1 2.
    destruct (task_assign_cases index (js "text") (VStr (c :: s)) st)
      as [[-> Hr]|[w ->]]; [by apply cannot_draw | by apply (persists _ _ w)].
  - unfold removeBtn_click. unfold mbind at 1, M_bind at 1.
    destruct (tasks st) as [| | | | |l|] eqn:Ht;
      try (rewrite tasks_splice_not_array by (by rewrite Ht);
           apply cannot_draw; [done|by rewrite renderTasks_run, Ht]).
    rewrite (tasks_splice_array _ _ _ st l Ht). by eapply persists.
  - apply leaves_list; auto.
  - apply leaves_list; auto.
  - unfold handleDrop. unfold mbind at 1, M_bind at 1, get_state.
    destruct (draggedIndex st) as [d|]; [|apply leaves_list; auto].
    case_decide; [apply leaves_list; auto|].
    unfold mbind at 1, M_bind at 1.
    destruct (tasks st) as [| | | | |l|] eqn:Ht;
      try (rewrite tasks_splice_not_array by (by rewrite Ht);
           apply cannot_draw; [done|by rewrite renderTasks_run, Ht]).
    rewrite (tasks_splice_array _ _ _ st l Ht).
    unfold mbind at 1, M_bind at 1.
    erewrite tasks_splice_array by reflexivity.
    rewrite set_tasks_twice. by eapply persists.
  - apply leaves_list; auto.
Qed.

Lemma saveTasks_outcome st :
  fst (saveTasks st) = Normal tt ∨ fst (saveTasks st) = Throw QuotaExceededError.
Proof. rewrite saveTasks_run. cbv zeta. case_decide; auto. Qed.

(** What [saveTasks(); renderTasks();] ends with, and where. *)
Lemma save_render_outcome st :
  let r := (saveTasks;; renderTasks) st in
  (fst r = Normal tt
   ∨ fst r = Throw QuotaExceededError
   ∨ fst r = Throw TypeError ∧ fst (renderTasks (snd r)) = Throw TypeError).
Proof.
  cbv zeta. unfold mbind, M_bind.
  destruct (saveTasks_outcome st) as [Hs|Hs];
    destruct (saveTasks st) as [[[]|e] s1]; cbn [fst] in Hs; try done.
  - pose proof (renderTasks_outcome s1) as Ho.
    destruct (renderTasks s1) as [c s2] eqn:Hrt.
    apply renderTasks_Normal in Hrt as Heq. subst s2. cbn [fst snd] in *.
    destruct Ho as [->| ->]; [by left|]. right; right. by rewrite Hrt.
  - right; left. cbn [fst]. congruence.
Qed.

Lemma save_render_clear_outcome st :
  let r := (saveTasks;; renderTasks;; modify (set_todoInput_value [])) st in
  (fst r = Normal tt
   ∧ tasks (snd r) = tasks st
   ∧ localStorage (snd r) !! js "tasks" = Some (JSON_stringify (tasks st)))
  ∨ fst r = Throw QuotaExceededError
  ∨ fst r = Throw TypeError ∧ fst (renderTasks (snd r)) = Throw TypeError.
Proof.
  cbv zeta. unfold mbind, M_bind.
  destruct (saveTasks st) as [[[]|e] s1] eqn:Hsave.
  - apply saveTasks_Normal in Hsave as [Ht Hl].
    pose proof (renderTasks_state s1) as H1.
    destruct (renderTasks s1) as [[[]|e] s2] eqn:Hr; cbn [fst snd] in *; subst s2.
    + left. unfold modify. cbn [fst snd tasks localStorage set_todoInput_value].
      by rewrite Ht.
    + right; right.
      destruct (renderTasks_outcome s1) as [H|H]; rewrite Hr in H;
        cbn [fst] in H; [done|]. injection H as ->. by rewrite Hr.
  - right; left. pose proof (saveTasks_outcome st) as H. rewrite Hsave in H.
    cbn [fst] in *. by destruct H.
Qed.

(** X14. When a listener completes, either it has changed neither the
    list nor the stored list, or the stored list is the encoding of the
    list it leaves: the storage is never left behind by a listener that
    completes. *)
Theorem storage_follows_list ev st st' :
  dispatch ev st = (Normal tt, st') →
  (tasks st' = tasks st
   ∧ localStorage st' !! js "tasks" = localStorage st !! js "tasks")
  ∨ localStorage st' !! js "tasks" = Some (JSON_stringify (tasks st')).
Proof.
  intros Hn. destruct (dispatch_manner ev st) as [Hc Ht Hl _|Hr|Hr _|w Hr|w Hr];
    rewrite Hn in *; cbn [fst snd] in *.
  - by left.
  - symmetry in Hr. apply renderTasks_Normal in Hr as ->. by left.
  - done.
  - symmetry in Hr. apply save_render_Normal in Hr as [-> ->]. by right.
  - destruct (save_render_clear_outcome (set_tasks w st)) as [H|[H|[H _]]];
      cbv zeta in H; rewrite <- Hr in H; cbn [fst snd] in H; try done.
    destruct H as (_ & -> & ->). by right.
Qed.

Lemma storage_follows_list_witness :
  (tasks (snd (addTask (js "2024-05-01T10:00:00.000Z")
                 (mkState (VArr []) None (js "Buy milk") false ∅ 200)))
   = VArr []
   ∧ localStorage (snd (addTask (js "2024-05-01T10:00:00.000Z")
                    (mkState (VArr []) None (js "Buy milk") false ∅ 200)))
     !! js "tasks" = (∅ : gmap (list N) (list N)) !! js "tasks")
  ∨ localStorage (snd (addTask (js "2024-05-01T10:00:00.000Z")
                   (mkState (VArr []) None (js "Buy milk") false ∅ 200)))
    !! js "tasks"
    = Some (JSON_stringify
              (tasks (snd (addTask (js "2024-05-01T10:00:00.000Z")
                         (mkState (VArr []) None (js "Buy milk") false ∅ 200))))).
Proof.
  apply (storage_follows_list (AddClick (js "2024-05-01T10:00:00.000Z"))
           (mkState (VArr []) None (js "Buy milk") false ∅ 200)).
  by vm_compute.
Defined.

Lemma dispatch_exceptions ev st :
  fst (dispatch ev st) ≠ Throw SyntaxError
  ∧ (fst (dispatch ev st) = Throw TypeError →
       fst (renderTasks (snd (dispatch ev st))) = Throw TypeError).
Proof.
  destruct (dispatch_manner ev st) as [Hc Ht Hl _|Hr|Hr Hd|w Hr|w Hr].
  - destruct Hc as [Hc|Hc]; rewrite Hc; split_and!; auto; done.
  - rewrite Hr.
    destruct (renderTasks_outcome st) as [H|H]; rewrite H; split_and!; auto;
      try done; intros _; by rewrite renderTasks_state.
  - rewrite Hr. cbn [fst snd]. split_and!; auto; done.
  - rewrite Hr.
    destruct (save_render_outcome (set_tasks w st)) as [H|[H|[H H']]];
      cbv zeta in *; rewrite ?H; split_and!; auto; try done.
  - rewrite Hr.
    destruct (save_render_clear_outcome (set_tasks w st)) as [[H _]|[H|[H H']]];
      cbv zeta in *; rewrite ?H; split_and!; auto; try done.
Qed.

End Outcomes.

(** ** Sessions *)

Section Sessions.

Implicit Types (st : state) (ev : event).

#[local] Existing Instance same_tasks_preorder.

Lemma on_page_drag st index :
  on_page st (Drop index) → drag_in_range st.
Proof.
  intros [_ Hd] d l Hdrag Ht. specialize (Hd d Hdrag).
  unfold rows in Hd. by rewrite Ht in Hd.
Qed.

(** The listeners keep a property of the tasks that the tasks they make
    have. *)
Lemma dispatch_keeps (P : Task → Prop) ev st :
  (∀ now, ev = AddClick now ∨ (∃ key, ev = KeyUp key now) →
          trim (todoInput_value st) ≠ [] →
          P (mkTask (trim (todoInput_value st)) false now)) →
  (∀ t b, P t → P (mkTask (text t) b (createdAt t))) →
  (∀ index isEditing s t, ev = EditClick index isEditing s →
          P t → trim s ≠ [] →
          P (mkTask (trim s) (completed t) (createdAt t))) →
  on_page st ev →
  tasks_satisfy P st → tasks_satisfy P (snd (dispatch ev st)).
Proof.
  intros Hadd Hcheck Hedit Hpage HP.
  destruct ev as
    [s|now|key now| | |index checked|index isEditing textContent|index
    |index| |index|]; cbn [dispatch]; try done.
  - apply addTask_keeps; [|done]. intros Hne. apply Hadd; auto.
  - unfold todoInput_keyup. case_decide; [|done].
    apply addTask_keeps; [|done]. intros Hne. apply Hadd; eauto.
  - apply deleteAllTasks_keeps.
  - destruct HP as (l & Ht & Hl). exists l. split; [|done].
    unfold darkModeToggle_click.
    destruct (toggleDarkMode_same_tasks None st) as [-> _]. done.
  - apply checkbox_change_keeps; [intros t; apply Hcheck|done].
  - apply editBtn_click_keeps; [|done]. intros t Ht Hne. by eapply Hedit.
  - by apply removeBtn_click_keeps.
  - apply handleDrop_keeps; [|done]. by eapply on_page_drag.
Qed.

(** X15. A listener never ends with a SyntaxError, and it ends with a
    TypeError only in a state whose list cannot be drawn ([renderTasks]
    throws on it).  On a list of task objects, with the events coming
    from its rows, a listener completes or ends with the
    QuotaExceededError of a full storage. *)
Theorem listener_exceptions ev st :
  fst (dispatch ev st) ≠ Throw SyntaxError
  ∧ (fst (dispatch ev st) = Throw TypeError →
       fst (renderTasks (snd (dispatch ev st))) = Throw TypeError)
  ∧ (tasks_satisfy (λ _, True) st → on_page st ev →
       fst (dispatch ev st) = Normal tt
       ∨ fst (dispatch ev st) = Throw QuotaExceededError).
Proof.
  destruct (dispatch_exceptions ev st) as [Hs Ht]. split_and!; [done..|].
  intros Hl Hpage.
  assert (tasks_satisfy (λ _, True) (snd (dispatch ev st))) as (l' & Hl' & _).
  { by apply dispatch_keeps. }
  destruct (fst (dispatch ev st)) as [[]|[]] eqn:Hc; auto; [done|].
  specialize (Ht eq_refl).
  rewrite (renderTasks_task_list _ l') in Ht; done.
Qed.

Lemma listener_exceptions_witness :
  fst (dispatch (RemoveClick 0) (mkState (task_list one_task) None [] false ∅ 5))
  = Normal tt
  ∨ fst (dispatch (RemoveClick 0)
           (mkState (task_list one_task) None [] false ∅ 5))
    = Throw QuotaExceededError.
Proof.
  apply (listener_exceptions (RemoveClick 0)
           (mkState (task_list one_task) None [] false ∅ 5)).
  - exists one_task. split; [reflexivity|]. by repeat constructor.
  - simpl. unfold rows. simpl. lia.
Defined.

Lemma restorable_same st st' :
  tasks st' = tasks st →
  localStorage st' !! js "tasks" = localStorage st !! js "tasks" →
  restorable st → restorable st'.
Proof.
  unfold restorable. rewrite !loadTasks_run. cbn [snd tasks set_tasks].
  by intros -> ->.
Qed.

Lemma restorable_stored st l :
  tasks st = task_list l → Forall wf_task l →
  localStorage st !! js "tasks" = Some (JSON_stringify (tasks st)) →
  restorable st.
Proof.
  intros Ht Hwf Hs. unfold restorable. rewrite loadTasks_run, Hs.
  cbn [snd tasks set_tasks]. by rewrite Ht, JSON_roundtrip.
Qed.

#[local] Instance input_kept_preorder :
  PreOrder (λ a b : state, todoInput_value b = todoInput_value a
                           ∨ todoInput_value b = []).
Proof.
  split; [by left|]. intros a b c [H1|H1] [H2|H2]; [left|right..]; congruence.
Qed.

Lemma input_after ev st :
  wf_event ev → wf_string (todoInput_value st) →
  wf_string (todoInput_value (snd (dispatch ev st))).
Proof.
  intros Hwf Hin.
  destruct (ev) as [s| | | | | | | | | | |] eqn:Hev; [done|..].
  all: rewrite <- Hev.
  all: assert (keeps (λ a b : state, todoInput_value b = todoInput_value a
                                ∨ todoInput_value b = []) (dispatch ev)) as Hk
    by (subst ev; unfold_listeners; repeat keeps_step).
  all: destruct (Hk st) as [-> | ->]; [done|by apply Forall_nil].
Qed.

End Sessions.

(** ** Reloading the page *)

Section Reload.

Local Open Scope nat_scope.

Lemma good_task_added s now :
  wf_string s → wf_string now → trim s ≠ [] →
  good_task (mkTask (trim s) false now).
Proof.
  intros Hs Hnow Hne. split_and!.
  - split; [by apply wf_trim|done].
  - by apply trim_not_blank.
  - apply trim_idem.
Qed.

Lemma dispatch_good_tasks ev st :
  on_page st ev → wf_event ev → wf_string (todoInput_value st) →
  tasks_satisfy good_task st → tasks_satisfy good_task (snd (dispatch ev st)).
Proof.
  intros Hpage Hwf Hin. apply dispatch_keeps; [| | |done].
  - intros now [->|[key ->]] Hne; by apply good_task_added.
  - by intros t b ([??] & ? & ?).
  - intros index isEditing s t -> ([? Hc] & ? & ?) Hne. split_and!.
    + split; [by apply wf_trim|done].
    + by apply trim_not_blank.
    + apply trim_idem.
Qed.

(** A listener that completes leaves a list that loading gives back,
    when it started from one. *)
Lemma dispatch_restorable ev st l :
  fst (dispatch ev st) = Normal tt →
  tasks (snd (dispatch ev st)) = task_list l → Forall wf_task l →
  restorable st → restorable (snd (dispatch ev st)).
Proof.
  intros Hn Hl Hwf Hr.
  destruct (dispatch_manner ev st) as [Hc Ht Hs _|Hd|Hd _|w Hd|w Hd].
  - by eapply restorable_same.
  - by rewrite Hd, renderTasks_state.
  - by rewrite Hd in Hn.
  - apply (restorable_stored _ l); [done..|].
    destruct (dispatch ev st) as [c st'] eqn:Hrun. cbn [fst snd] in *.
    subst c. symmetry in Hd. apply save_render_Normal in Hd as [-> ->]. done.
  - apply (restorable_stored _ l); [done..|].
    destruct (save_render_clear_outcome (set_tasks w st)) as [H|[H|[H _]]];
      cbv zeta in H; rewrite <- Hd in H; [|congruence..].
    destruct H as (_ & -> & ->). done.
Qed.

Lemma dispatch_consistent ev st :
  on_page st ev → wf_event ev → fst (dispatch ev st) = Normal tt →
  consistent st → consistent (snd (dispatch ev st)).
Proof.
  intros Hpage Hwf Hn (Hgood & Hr & Hin).
  pose proof (dispatch_good_tasks ev st Hpage Hwf Hin Hgood) as Hgood'.
  split_and!; [done| |by apply input_after].
  destruct Hgood' as (l & Hl & HP).
  apply (dispatch_restorable _ _ l); [done..| |done].
  eapply Forall_impl; [done|]. by intros t [? _].
Qed.

Lemma run_consistent evs st :
  completes evs st → consistent st → consistent (run evs st).
Proof.
  revert st. induction evs as [|ev evs IH]; intros st; [done|].
  intros (Hpage & Hwf & Hn & Hrest) Hc. cbn [run fold_left].
  apply IH; [done|]. by apply dispatch_consistent.
Qed.

Lemma init_tasks st st0 :
  localStorage st0 = localStorage st → restorable st →
  tasks (snd (init st0)) = tasks st.
Proof.
  intros Heq Hr. destruct (init_same_tasks st0) as [-> _].
  unfold restorable in Hr. rewrite loadTasks_run in *.
  cbn [snd tasks set_tasks] in *. by rewrite Heq.
Qed.

(** X16. Through a session of events that come from the rows on the
    page and whose listeners all complete, the list stays a list of
    tasks with trimmed texts that are not blank, and what is stored stays
    the list: a page that starts afterwards on the same storage gets, by
    [init], exactly the list in memory. *)
Theorem session_survives_reload evs st st0 :
  consistent st → completes evs st →
  localStorage st0 = localStorage (run evs st) →
  consistent (run evs st) ∧ tasks (snd (init st0)) = tasks (run evs st).
Proof.
  intros Hc Hevs Hst0.
  pose proof (run_consistent evs st Hevs Hc) as Hc'. split; [done|].
  apply init_tasks; [done|]. by destruct Hc' as (_ & ? & _).
Qed.

Lemma session_survives_reload_witness :
  consistent (run shopping empty_page)
  ∧ tasks (snd (init (reload (run shopping empty_page))))
    = tasks (run shopping empty_page).
Proof.
  apply (session_survives_reload shopping empty_page
           (reload (run shopping empty_page))).
  - split_and!; [by exists []|reflexivity|by apply Forall_nil].
  - unfold shopping. cbn [completes].
    repeat match goal with
           | |- _ ∧ _ => split
           | |- on_page _ (Drop _) =>
               split; [apply Nat.ltb_lt; by vm_compute|];
               intros d; vm_compute; intros [= <-]; lia
           | |- on_page _ _ => first [exact I|apply Nat.ltb_lt; by vm_compute]
           | |- wf_event _ =>
               first [exact I
                     |apply wf_string_js; repeat constructor]
           | |- fst _ = Normal tt => by vm_compute
           | |- True => exact I
           end.
  - reflexivity.
Defined.

End Reload.

(** ** The script without storage *)

Section SimpleScript.

Local Open Scope nat_scope.

Import Simple.

Implicit Types (p : page) (l r : list item) (it : item) (n : nat).

(** [removeChild] takes out the first child that is the node. *)
Lemma removeChild_Some n l r :
  removeChild n l = Some r ↔
  ∃ l1 it l2, l = l1 ++ it :: l2 ∧ node it = n ∧ r = l1 ++ l2
              ∧ Forall (λ x, node x ≠ n) l1.
Proof.
  revert r. induction l as [|x l IH]; intros r; cbn [removeChild].
  - split; [done|]. intros (l1 & it & l2 & Hl & _). by destruct l1.
  - case_decide as Hx.
    + split.
      * intros [= <-]. by exists [], x, l.
      * intros (l1 & it & l2 & Hl & Hn & -> & Hl1).
        destruct l1 as [|y l1]; simplify_eq/=; [done|].
        by apply Forall_cons in Hl1 as [? _].
    + destruct (removeChild n l) as [r'|] eqn:Hr.
      * split.
        -- intros [= <-].
           destruct (proj1 (IH r') eq_refl) as (l1 & it & l2 & -> & Hn & -> & Hl1).
           exists (x :: l1), it, l2. split_and!; try done. by constructor.
        -- intros (l1 & it & l2 & Hl & Hn & -> & Hl1).
           destruct l1 as [|y l1]; simplify_eq/=.
           apply Forall_cons in Hl1 as [_ Hl1]. f_equal. f_equal.
           assert (Some r' = Some (l1 ++ l2)) as [= ->]; [|done].
           apply IH. by exists l1, it, l2.
      * split; [done|].
        intros (l1 & it & l2 & Hl & Hn & -> & Hl1).
        destruct l1 as [|y l1]; simplify_eq/=.
        apply Forall_cons in Hl1 as [_ Hl1].
        assert (None = Some (l1 ++ l2)); [|done].
        apply IH. by exists l1, it, l2.
Qed.

Lemma removeChild_None n l :
  removeChild n l = None ↔ n ∉ node <$> l.
Proof.
  induction l as [|x l IH]; cbn [removeChild].
  - split; [|done]. intros _. apply not_elem_of_nil.
  - rewrite fmap_cons, not_elem_of_cons. case_decide as Hx.
    + split; [done|]. by intros [? _].
    + destruct (removeChild n l); split; try done.
      * intros [_ H]. by apply IH in H.
      * intros _. split; [done|]. by apply IH.
Qed.

Lemma sorted_lt_NoDup (ns : list nat) : StronglySorted lt ns → NoDup ns.
Proof.
  induction 1 as [|n ns Hs IH Hn]; constructor; [|done].
  intros Hin. rewrite Forall_forall in Hn. specialize (Hn _ Hin). lia.
Qed.

(** On distinct nodes, the child at [i] is the one that is taken out. *)
Lemma removeChild_lookup l i it :
  NoDup (node <$> l) → l !! i = Some it →
  removeChild (node it) l = Some (delete i l).
Proof.
  intros Hnd Hi. apply removeChild_Some.
  exists (take i l), it, (drop (S i) l). split_and!.
  - by rewrite take_drop_middle.
  - done.
  - apply delete_take_drop.
  - apply Forall_forall. intros x Hx Heq.
    apply list_elem_of_lookup in Hx as [j Hj].
    assert (j < i) as Hlt.
    { apply lookup_lt_Some in Hj. rewrite length_take in Hj. lia. }
    rewrite lookup_take_lt in Hj by done.
    assert (j = i); [|lia].
    apply (NoDup_lookup (node <$> l) j i (node it)); [done|..];
      rewrite list_lookup_fmap; [by rewrite Hj; cbn; f_equal|by rewrite Hi].
Qed.

Lemma addTodo_well_formed p : well_formed p → well_formed (addTodo p).
Proof.
  intros [Hs Hb]. unfold addTodo. cbv zeta. case_decide as Hne; [done|].
  split; cbn [todoList created].
  - rewrite fmap_app. apply StronglySorted_app_2; [|done|by repeat constructor].
    intros x1 x2 Hx1 ->%list_elem_of_singleton.
    apply list_elem_of_fmap in Hx1 as (it & -> & Hit).
    rewrite Forall_forall in Hb. by destruct (Hb _ Hit).
  - apply Forall_app. split.
    + eapply Forall_impl; [done|]. intros it (? & ? & ?). split_and!; [lia|done..].
    + repeat constructor; [done|]. apply trim_idem.
Qed.

Lemma removeBtn_click_well_formed n p :
  well_formed p → well_formed (snd (removeBtn_click n p)).
Proof.
  intros [Hs Hb]. unfold removeBtn_click.
  destruct (removeChild n (todoList p)) as [r|] eqn:Hr; [|done].
  apply removeChild_Some in Hr as (l1 & it & l2 & Hl & _ & -> & _).
  rewrite Hl in *. split; cbn [snd todoList created].
  - rewrite fmap_app in *. rewrite fmap_cons in Hs.
    apply StronglySorted_app in Hs as (H12 & H1 & H2).
    apply StronglySorted_cons in H2 as [_ H2].
    apply StronglySorted_app; split_and!; try done.
    intros x1 x2 Hx1 Hx2. apply H12; [done|]. by right.
  - apply Forall_app in Hb as [Hb1 Hb2]. apply Forall_cons in Hb2 as [_ Hb2].
    by apply Forall_app.
Qed.

Lemma simple_dispatch_well_formed ev p :
  well_formed p → well_formed (dispatch ev p).
Proof.
  intros Hwf. destruct ev as [s| |key|n]; cbn [dispatch].
  - done.
  - by apply addTodo_well_formed.
  - unfold todoInput_keyup. case_decide; [by apply addTodo_well_formed|done].
  - by apply removeBtn_click_well_formed.
Qed.

(** X17. In [part_000], whatever is typed and clicked, the children of
    the list stay in the order in which they were added, no list item is
    twice in the list, and no item has an empty or untrimmed text. *)
Theorem simple_session_well_formed evs p :
  well_formed p →
  well_formed (run evs p)
  ∧ NoDup (node <$> todoList (run evs p))
  ∧ Forall (λ it, blank (label it) = false) (todoList (run evs p)).
Proof.
  intros Hwf.
  assert (well_formed (run evs p)) as Hrun.
  { revert p Hwf. induction evs as [|ev evs IH]; intros p Hwf; [done|].
    cbn [run fold_left]. apply IH. by apply simple_dispatch_well_formed. }
  split_and!; [done|by apply sorted_lt_NoDup, Hrun|].
  destruct Hrun as [_ Hb]. eapply Forall_impl; [done|].
  intros it (_ & Hne & Htrim). cbv beta. rewrite <- Htrim in *.
  by apply trim_not_blank.
Qed.

Lemma simple_session_well_formed_witness :
  well_formed (run simple_errands simple_start)
  ∧ NoDup (node <$> todoList (run simple_errands simple_start))
  ∧ Forall (λ it, blank (label it) = false)
      (todoList (run simple_errands simple_start)).
Proof.
  apply (simple_session_well_formed simple_errands simple_start).
  split; [apply SSorted_nil|apply Forall_nil_2].
Defined.

(** X18. In [part_000] the remove button of a list item that is in the
    list takes exactly that item out, leaving the others in their order
    and the input as it is; a second call of the same listener (the item
    being gone) ends with the NotFoundError of [removeChild] and changes
    nothing. *)
Theorem simple_remove_once p i it :
  well_formed p → todoList p !! i = Some it →
  let p' := mkPage (input_value p) (delete i (todoList p)) (created p) in
  removeBtn_click (node it) p = (Done, p')
  ∧ removeBtn_click (node it) p' = (NotFoundError, p').
Proof.
  intros [Hs Hb] Hi p'.
  pose proof (sorted_lt_NoDup _ Hs) as Hnd.
  unfold removeBtn_click at 1 2.
  rewrite (removeChild_lookup _ i) by done. split; [done|].
  assert (removeChild (node it) (todoList p') = None) as ->; [|done].
  apply removeChild_None. cbn [p' todoList].
  rewrite list_fmap_delete. intros Hin.
  apply list_elem_of_lookup in Hin as [j Hj].
  assert ((node <$> todoList p) !! i = Some (node it)) as Hi'
    by (by rewrite list_lookup_fmap, Hi).
  destruct (decide (j < i)) as [Hlt|Hge].
  - rewrite list_lookup_delete_lt in Hj by done.
    pose proof (NoDup_lookup _ _ _ _ Hnd Hj Hi'). lia.
  - rewrite list_lookup_delete_ge in Hj by lia.
    pose proof (NoDup_lookup _ _ _ _ Hnd Hj Hi'). lia.
Qed.

Lemma simple_remove_once_witness :
  let p := run [Typed (js "A"); AddClick; Typed (js "B"); AddClick] simple_start in
  removeBtn_click 0 p = (Done, mkPage [] [mkItem 1 (js "B")] 2)
  ∧ removeBtn_click 0 (mkPage [] [mkItem 1 (js "B")] 2)
    = (NotFoundError, mkPage [] [mkItem 1 (js "B")] 2).
Proof.
  apply (simple_remove_once
           (run [Typed (js "A"); AddClick; Typed (js "B"); AddClick] simple_start)
           0 (mkItem 0 (js "A"))); [|reflexivity].
  split; [by repeat constructor|].
  repeat constructor; by vm_compute.
Defined.

End SimpleScript.

(** ** The two scripts on the same events *)

Section SameTexts.

Local Open Scope nat_scope.

Lemma addTask_same_texts now p st :
  same_texts p st → fst (addTask now st) = Normal tt →
  same_texts (Simple.addTodo p) (snd (addTask now st)).
Proof.
  intros [(l & Ht & Hl) Hin] Hn. unfold Simple.addTodo. cbv zeta.
  rewrite <- Hin. case_decide as Hne.
  { rewrite addTask_reject by done. split; [by exists l|done]. }
  rewrite (addTask_run _ (task_val <$> l)) in * by done.
  match type of Hn with fst (?m ?s) = _ =>
    destruct (save_render_clear_outcome s) as [H|[H|[H _]]];
    cbv zeta in H; [|congruence..];
    destruct (save_render_clear_input s) as [_ Hclear]; cbv zeta in Hclear
  end.
  destruct H as (_ & Htasks & _). split; [|by apply Hclear].
  exists (l ++ [mkTask (trim (todoInput_value st)) false now]).
  rewrite Htasks. cbn [tasks set_tasks Simple.todoList].
  split; [unfold task_list; by rewrite fmap_app|].
  by rewrite !fmap_app, Hl.
Qed.

Lemma removeBtn_click_same_texts index it p st :
  Simple.well_formed p → same_texts p st →
  Simple.todoList p !! index = Some it →
  same_texts (snd (Simple.removeBtn_click (Simple.node it) p))
             (snd (removeBtn_click index st)).
Proof.
  intros [Hs _] [(l & Ht & Hl) Hin] Hi.
  unfold Simple.removeBtn_click.
  rewrite (removeChild_lookup (Simple.todoList p) index it
             (sorted_lt_NoDup _ Hs) Hi).
  rewrite (removeBtn_click_run _ (task_val <$> l)) by done.
  destruct (save_render_frame
              (set_tasks (VArr (delete index (task_val <$> l))) st))
    as (_ & Hinput & _).
  split; cbn [snd Simple.todoList Simple.input_value].
  - exists (delete index l). rewrite save_render_tasks. cbn [tasks set_tasks].
    split; [unfold task_list; by rewrite list_fmap_delete|].
    by rewrite !list_fmap_delete, Hl.
  - by rewrite Hinput.
Qed.

Lemma dispatch_same_texts ev ev' p st :
  Simple.well_formed p → same_texts p st →
  simple_event p ev = Some ev' →
  fst (dispatch ev st) = Normal tt →
  same_texts (Simple.dispatch ev' p) (snd (dispatch ev st)).
Proof.
  intros Hwf Hsame Hev Hn.
  destruct ev as
    [s|now|key now| | |index checked|index isEditing textContent|index
    |index| |index|]; cbn [simple_event] in Hev; try done.
  - injection Hev as <-. destruct Hsame as [Hl _]. by split.
  - injection Hev as <-. by apply addTask_same_texts.
  - injection Hev as <-. cbn [dispatch Simple.dispatch] in *.
    unfold todoInput_keyup, Simple.todoInput_keyup in *.
    case_decide; [by apply addTask_same_texts|done].
  - destruct (Simple.todoList p !! index) as [it|] eqn:Hi; [|done].
    injection Hev as <-. by apply removeBtn_click_same_texts.
Qed.

(** X19. On the events that both scripts have listeners for (typing,
    the add button, a key in the input field, a remove button),
    [script.js] shows what [part_000] shows: when its listeners complete,
    the texts of its tasks stay, in order, the texts of the list items of
    [part_000], and its input field stays the same as well. *)
Theorem scripts_show_same_texts evs evs' p st :
  Simple.well_formed p → same_texts p st →
  completes evs st → simple_events evs p = Some evs' →
  same_texts (Simple.run evs' p) (run evs st).
Proof.
  revert evs' p st. induction evs as [|ev evs IH]; intros evs' p st Hwf Hsame.
  { intros _ [= <-]. done. }
  intros (_ & _ & Hn & Hrest). cbn [simple_events].
  destruct (simple_event p ev) as [ev'|] eqn:Hev; [|done].
  destruct (simple_events evs (Simple.dispatch ev' p)) as [r|] eqn:Hr; [|done].
  intros [= <-]. cbn [run Simple.run fold_left].
  apply IH; [by apply simple_dispatch_well_formed| |done..].
  by apply dispatch_same_texts.
Qed.

Lemma scripts_show_same_texts_witness :
  same_texts
    (Simple.run
       [Simple.Typed (js "Buy milk"); Simple.AddClick;
        Simple.Typed (js " Call Bob "); Simple.KeyUp (js "Enter");
        Simple.Typed (js "   "); Simple.AddClick;
        Simple.RemoveClick 0;
        Simple.Typed (js "Post letter"); Simple.KeyUp (js "a");
        Simple.AddClick]
       simple_start)
    (run errands empty_page).
Proof.
  apply (scripts_show_same_texts errands _ simple_start empty_page).
  - split; [apply SSorted_nil|apply Forall_nil_2].
  - split; [by exists []|reflexivity].
  - unfold errands. cbn [completes].
    repeat match goal with
           | |- _ ∧ _ => split
           | |- on_page _ _ => first [exact I|apply Nat.ltb_lt; by vm_compute]
           | |- wf_event _ =>
               first [exact I
                     |apply wf_string_js; repeat constructor]
           | |- fst _ = Normal tt => by vm_compute
           | |- True => exact I
           end.
  - by vm_compute.
Defined.

End SameTexts.

(** ** The dark mode across a reload *)

Section DarkReload.

Local Open Scope nat_scope.

Lemma init_darkMode st :
  darkMode (snd (init st)) = dark_stored st || darkMode st.
Proof.
  rewrite init_run. unfold mbind, M_bind, dark_stored. case_decide as Hd.
  - rewrite bool_decide_eq_true_2 by done.
    pose proof (toggleDarkMode_darkMode (Some true) (snd (loadTasks st))) as H.
    destruct (toggleDarkMode _ _) as [[[]|e] s1]; [|done].
    cbn [snd] in H. by rewrite (surjective_pairing (renderTasks s1)),
      renderTasks_state.
  - rewrite bool_decide_eq_false_2 by done. cbn [mret M_ret].
    rewrite (surjective_pairing (renderTasks _)), renderTasks_state.
    by rewrite loadTasks_run.
Qed.

(** A listener that completes leaves the stored preference the dark
    mode of the page, when it found it so. *)
Lemma dispatch_dark_stored ev st :
  fst (dispatch ev st) = Normal tt →
  darkMode st = dark_stored st →
  darkMode (snd (dispatch ev st)) = dark_stored (snd (dispatch ev st)).
Proof.
  intros Hn Hd.
  assert (ev = DarkModeClick ∨ ev ≠ DarkModeClick) as [->|Hev]
    by (destruct ev; auto).
  - cbn [dispatch] in *. unfold darkModeToggle_click in *.
    rewrite toggleDarkMode_run in *. cbv zeta in *.
    case_decide; [|done]. unfold dark_stored.
    cbn [snd darkMode localStorage set_localStorage set_darkMode].
    rewrite lookup_insert_eq. by destruct (negb (darkMode st)).
  - destruct (dispatch_same_dark ev Hev st) as [H1 H2].
    unfold dark_stored in *. by rewrite H1, H2.
Qed.

Lemma run_dark_stored evs st :
  completes evs st → darkMode st = dark_stored st →
  darkMode (run evs st) = dark_stored (run evs st).
Proof.
  revert st. induction evs as [|ev evs IH]; intros st; [done|].
  intros (_ & _ & Hn & Hrest) Hd. cbn [run fold_left].
  apply IH; [done|]. by apply dispatch_dark_stored.
Qed.

(** X20. Through a session whose listeners all complete, the stored
    preference stays the dark mode of the page, so that a page that
    starts afterwards on the same storage, without the class on its
    body, gets by [init] the dark mode that the session left. *)
Theorem dark_mode_survives_reload evs st st0 :
  darkMode st = dark_stored st → completes evs st →
  localStorage st0 = localStorage (run evs st) → darkMode st0 = false →
  darkMode (run evs st) = dark_stored (run evs st)
  ∧ darkMode (snd (init st0)) = darkMode (run evs st).
Proof.
  intros Hd Hevs Hst0 Hoff.
  pose proof (run_dark_stored evs st Hevs Hd) as Hrun. split; [done|].
  rewrite init_darkMode, Hoff, orb_false_r, Hrun.
  unfold dark_stored. by rewrite Hst0.
Qed.

Lemma dark_mode_survives_reload_witness :
  darkMode (run shopping empty_page) = dark_stored (run shopping empty_page)
  ∧ darkMode (snd (init (reload (run shopping empty_page))))
    = darkMode (run shopping empty_page).
Proof.
  apply (dark_mode_survives_reload shopping empty_page
           (reload (run shopping empty_page))).
  - reflexivity.
  - unfold shopping. cbn [completes].
    repeat match goal with
           | |- _ ∧ _ => split
           | |- on_page _ (Drop _) =>
               split; [apply Nat.ltb_lt; by vm_compute|];
               intros d; vm_compute; intros [= <-]; lia
           | |- on_page _ _ => first [exact I|apply Nat.ltb_lt; by vm_compute]
           | |- wf_event _ =>
               first [exact I
                     |apply wf_string_js; repeat constructor]
           | |- fst _ = Normal tt => by vm_compute
           | |- True => exact I
           end.
  - reflexivity.
  - reflexivity.
Defined.

End DarkReload.

(** ** The time stamps of the tasks *)

Section Stamps.

Local Open Scope nat_scope.

Implicit Types (st : state) (l : list Task) (t : Task).

Lemma createdAt_insert l i t t' :
  l !! i = Some t → createdAt t' = createdAt t →
  createdAt <$> <[i:=t']> l = createdAt <$> l.
Proof.
  intros Hi Hc. rewrite list_fmap_insert, Hc.
  apply list_insert_id. by rewrite list_lookup_fmap, Hi.
Qed.

Lemma addTask_stamps st l now :
  tasks st = task_list l →
  ∃ l', tasks (snd (addTask now st)) = task_list l'
        ∧ (createdAt <$> l' = createdAt <$> l
           ∨ createdAt <$> l' = (createdAt <$> l) ++ [now]).
Proof.
  intros Ht. destruct (decide (trim (todoInput_value st) = [])) as [He|Hne].
  - exists l. rewrite addTask_reject by done. auto.
  - exists (l ++ [mkTask (trim (todoInput_value st)) false now]).
    rewrite (addTask_tasks st (task_val <$> l)) by done.
    split; [unfold task_list; by rewrite fmap_app|].
    right. by rewrite fmap_app.
Qed.

(** X21. No listener changes or invents a time stamp.  On a list of
    tasks, with the event coming from a row on the page: adding leaves
    the [createdAt] stamps as they are or appends the current time;
    removing and deleting all leave some of the stamps that were there;
    every other listener (check box, edit, drag and drop, dark mode,
    typing) leaves exactly the stamps that were there, each as often as
    before. *)
Theorem createdAt_kept ev st l :
  tasks st = task_list l → on_page st ev →
  ∃ l', tasks (snd (dispatch ev st)) = task_list l'
        ∧ match ev with
          | AddClick now | KeyUp _ now =>
              createdAt <$> l' = createdAt <$> l
              ∨ createdAt <$> l' = (createdAt <$> l) ++ [now]
          | RemoveClick _ | DeleteAllClick =>
              createdAt <$> l' ⊆+ createdAt <$> l
          | _ => createdAt <$> l' ≡ₚ createdAt <$> l
          end.
Proof.
  intros Ht Hpage.
  assert (rows st = length l) as Hrows
    by (unfold rows, task_list in *; by rewrite Ht, length_fmap).
  destruct ev as
    [s|now|key now| | |index checked|index isEditing textContent|index
    |index| |index|]; cbn [dispatch on_page] in *;
    try (by exists l).
  - by apply addTask_stamps.
  - unfold todoInput_keyup. case_decide; [by apply addTask_stamps|].
    exists l. auto.
  - exists []. split; [|apply submseteq_nil_l].
    unfold deleteAllTasks. unfold mbind at 1, M_bind at 1, modify.
    by rewrite save_render_tasks.
  - exists l. split; [|done]. unfold darkModeToggle_click.
    destruct (toggleDarkMode_same_tasks None st) as [-> _]. done.
  - destruct (lookup_lt_is_Some_2 l index) as [t Hi]; [lia|].
    exists (<[index:=mkTask (text t) checked (createdAt t)]> l).
    rewrite (checkbox_change_run st l index t) by done.
    rewrite save_render_tasks. split; [done|].
    by rewrite (createdAt_insert l index t).
  - destruct (lookup_lt_is_Some_2 l index) as [t Hi]; [lia|].
    destruct isEditing; [|by exists l].
    destruct (decide (trim textContent = [])) as [He|Hne].
    { exists l. by rewrite (editBtn_click_discard st l). }
    exists (<[index:=mkTask (trim textContent) (completed t) (createdAt t)]> l).
    rewrite (editBtn_click_run st l index t) by done.
    rewrite save_render_tasks. split; [done|].
    by rewrite (createdAt_insert l index t).
  - exists (delete index l).
    rewrite (removeBtn_click_run st (task_val <$> l)) by done.
    rewrite save_render_tasks. cbn [tasks set_tasks]. split.
    + unfold task_list. by rewrite list_fmap_delete.
    + rewrite list_fmap_delete. apply submseteq_delete.
  - destruct Hpage as [Hi Hd].
    destruct (draggedIndex st) as [dragged|] eqn:Hdrag;
      [|exists l; by rewrite handleDrop_skip by auto].
    destruct (decide (dragged = index)) as [->|Hne];
      [exists l; by rewrite handleDrop_skip by auto|].
    destruct (lookup_lt_is_Some_2 l dragged) as [t Hx];
      [rewrite <- Hrows; by apply Hd|].
    exists (take index (delete dragged l) ++ t :: drop index (delete dragged l)).
    rewrite (handleDrop_run st (task_val <$> l) dragged index) by done.
    rewrite save_render_tasks. cbn [tasks set_tasks]. split.
    + rewrite task_list_lookup, Hx. cbn [fmap option_fmap option_map default].
      unfold task_list.
      by rewrite fmap_app, fmap_cons, fmap_take, fmap_drop, list_fmap_delete.
    + apply fmap_Permutation.
      rewrite <- Permutation_middle, take_drop.
      symmetry. by apply delete_Permutation.
Qed.

Lemma createdAt_kept_witness :
  ∃ l', tasks (snd (dispatch (Drop 0)
                      (mkState (task_list [milk; mkTask (js "B") false (js "x")])
                               (Some 1) [] false ∅ 500)))
        = task_list l'
        ∧ createdAt <$> l'
          ≡ₚ createdAt <$> [milk; mkTask (js "B") false (js "x")].
Proof.
  apply (createdAt_kept (Drop 0)
           (mkState (task_list [milk; mkTask (js "B") false (js "x")])
                    (Some 1) [] false ∅ 500)
           [milk; mkTask (js "B") false (js "x")]); [reflexivity|].
  split; [unfold rows; simpl; lia|]. intros d [= <-]. unfold rows; simpl; lia.
Defined.

End Stamps.

(** ** Numbers in a stored list *)

Section Numbers.

(** The numbers of a blob that the script did not write are stored
    again as the strings of their values. *)
Example stringify_numbers :
  JSON_stringify
    <$> JSON_parse
          (js "[1.0,1e400,-0,0.1e1,1e21,1E-7,123456789012345678901234567890,0.1,-1.5e3,5e-324,1e-400,9007199254740993]")
  = Some
      (js "[1,null,0,1,1e+21,1e-7,1.2345678901234568e+29,0.1,-1500,5e-324,0,9007199254740992]").
Proof. by vm_compute. Qed.

Example remove_stores_numbers :
  localStorage
    (snd ((loadTasks;; removeBtn_click 1)
            (mkState (VArr []) None [] false
                     {[ js "tasks" := js "[1.0, 2, 3e0]" ]} 100)))
    !! js "tasks"
  = Some (js "[1,3]").
Proof. by vm_compute. Qed.

End Numbers.
